(** * homebridge-lovesac-stealthtech: protocol codec, state store and link supervisor

    A shallow embedding of the TypeScript sources
      - [src/settings.ts]
      - [src/protocol/constants.ts]
      - [src/protocol/responses.ts]
      - [src/protocol/commands.ts]
      - [src/protocol/LovesacDevice.ts]
      - [src/ble/BleClient.ts]
      - [src/ble/BleConnectionManager.ts]
    followed by the properties established about them.

    Conventions.  A JavaScript [number] that only ever holds an integer is a
    [Z]; a [Buffer] is a list of [Z] in [0, 255]; a [string] is a
    [String.string].  A function that mutates an object takes the object and
    returns the updated one.  An [async] method is cut at its [await]s: the
    state records at which [await] a suspended call is parked, and an event
    resumes it with the answer of the transport. *)

From Stdlib Require Import ZArith List Bool String Ascii Lia.
From Stdlib Require Import QArith Qround.
From Stdlib Require Import Sorting.Sorted.
From Stdlib Require Import DecimalString.
Import ListNotations.

Local Open Scope Z_scope.

(* ================================================================== *)
(** * Part I: the embedding                                             *)
(* ================================================================== *)

(** ** JavaScript primitives used by the sources *)

Module Js.

(** [Buffer]: a sequence of unsigned bytes. *)
Definition Buffer := list Z.

(** Storing a number in a [Buffer] keeps its low eight bits. *)
Definition toUint8 (n : Z) : Z := Z.land n 255.

(** [Buffer.from([...])]. *)
Definition Buffer_from (elems : list Z) : Buffer := map toUint8 elems.

(** [data[i]]; [None] is [undefined]. *)
Definition byteAt (data : Buffer) (i : nat) : option Z := nth_error data i.

(** [data[i] === k]. *)
Definition byteIs (data : Buffer) (i : nat) (k : Z) : bool :=
  match byteAt data i with
  | Some b => b =? k
  | None => false
  end.

(** Truthiness of a string: the empty string is falsy. *)
Definition truthy (s : string) : bool :=
  match s with
  | EmptyString => false
  | _ => true
  end.

(** [s || undefined]. *)
Definition orUndefined (s : string) : option string :=
  if truthy s then Some s else None.

(** [Math.round] on a rational: the nearest integer, ties towards
    positive infinity. *)
Definition Math_round (x : Q) : Z := Qfloor (x + (1 # 2))%Q.

(** How a call that may throw, or an awaited promise, ends. *)
Inductive Completion : Set := Normal | Throw.

(** The decimal rendering of a byte inside a template literal. *)
Definition String_of_Z (n : Z) : string :=
  NilEmpty.string_of_int (Z.to_int n).

End Js.

(** ** [src/settings.ts] *)

Module Settings.

Module CharUUID.
Definition UpStream      : string := "657863656c706f696e742e636f6d0001".
Definition DeviceInfo    : string := "657863656c706f696e742e636f6d0002".
Definition EqControl     : string := "657863656c706f696e742e636f6d0003".
Definition AudioPath     : string := "657863656c706f696e742e636f6d0004".
Definition PlayerControl : string := "657863656c706f696e742e636f6d0005".
Definition SystemLayout  : string := "657863656c706f696e742e636f6d0006".
Definition Source        : string := "657863656c706f696e742e636f6d0007".
Definition Covering      : string := "657863656c706f696e742e636f6d0008".
Definition UserSetting   : string := "657863656c706f696e742e636f6d0009".
Definition OTA           : string := "657863656c706f696e742e636f6d000a".
End CharUUID.

Definition MAX_VOLUME : Z := 36.

End Settings.

(** ** [src/protocol/constants.ts] *)

Module Constants.

(** Response codes: the last two bytes of an UpStream notification are
    [<code> <value>]. *)
Inductive ResponseCode : Set :=
| Volume | CenterVolume | Treble | Bass | Mute | QuietMode | Balance
| Layout | Source | Power | Preset | Covering | ArmType | Subwoofer
| RearVolume.

Definition ResponseCode_to_Z (c : ResponseCode) : Z :=
  match c with
  | Volume       => 0x01
  | CenterVolume => 0x02
  | Treble       => 0x03
  | Bass         => 0x04
  | Mute         => 0x05
  | QuietMode    => 0x06
  | Balance      => 0x07
  | Layout       => 0x08
  | Source       => 0x09
  | Power        => 0x0a
  | Preset       => 0x0b
  | Covering     => 0x0c
  | ArmType      => 0x0d
  | Subwoofer    => 0x0e
  | RearVolume   => 0x0f
  end.

(** The enum member carried by a number, when there is one. *)
Definition ResponseCode_of_Z (n : Z) : option ResponseCode :=
  match n with
  | 0x01 => Some Volume
  | 0x02 => Some CenterVolume
  | 0x03 => Some Treble
  | 0x04 => Some Bass
  | 0x05 => Some Mute
  | 0x06 => Some QuietMode
  | 0x07 => Some Balance
  | 0x08 => Some Layout
  | 0x09 => Some Source
  | 0x0a => Some Power
  | 0x0b => Some Preset
  | 0x0c => Some Covering
  | 0x0d => Some ArmType
  | 0x0e => Some Subwoofer
  | 0x0f => Some RearVolume
  | _ => None
  end.

(** Preset WRITE values (sent to the device). *)
Inductive PresetWriteValue : Set :=
| W_TV | W_News | W_Movies | W_Music | W_Manual.

Definition PresetWriteValue_to_Z (p : PresetWriteValue) : Z :=
  match p with
  | W_TV => 5 | W_News => 6 | W_Movies => 7 | W_Music => 8 | W_Manual => 9
  end.

(** Preset READ values (received in notifications). *)
Inductive PresetReadValue : Set :=
| R_Movies | R_Music | R_TV | R_News.

Definition PresetReadValue_to_Z (p : PresetReadValue) : Z :=
  match p with
  | R_Movies => 0 | R_Music => 1 | R_TV => 2 | R_News => 3
  end.

(** Source values (the same for read and write). *)
Inductive SourceValue : Set :=
| HDMI | Bluetooth | AUX | Optical.

Definition SourceValue_to_Z (s : SourceValue) : Z :=
  match s with
  | HDMI => 0 | Bluetooth => 1 | AUX => 2 | Optical => 3
  end.

Definition presetWriteToRead (writeVal : PresetWriteValue)
  : option PresetReadValue :=
  match writeVal with
  | W_Movies => Some R_Movies
  | W_Music  => Some R_Music
  | W_TV     => Some R_TV
  | W_News   => Some R_News
  | W_Manual => None
  end.

End Constants.

(** ** [src/protocol/responses.ts] *)

Module Responses.
Import Js Constants.

(** The fields typed [SourceValue] and [PresetReadValue] are numbers at
    run time and start at [-1], outside either enum. *)
Record DeviceState : Set := mkDeviceState {
  power : bool;
  volume : Z;
  mute : bool;
  source : Z;
  preset : Z;
  quietMode : bool;
  bass : Z;
  treble : Z;
  centerVolume : Z;
  rearVolume : Z;
  balance : Z;
  subwooferConnected : bool
}.

Definition createDefaultState : DeviceState :=
  {| power := false;
     volume := -1;
     mute := false;
     source := -1;
     preset := -1;
     quietMode := false;
     bass := -1;
     treble := -1;
     centerVolume := -1;
     rearVolume := -1;
     balance := -1;
     subwooferConnected := false |}.

Record ParsedResponse : Set := mkParsed {
  code : ResponseCode;
  value : Z
}.

Definition parseNotification (data : Buffer) : option ParsedResponse :=
  if (List.length data <? 4)%nat then None
  else if (5 <=? List.length data)%nat
          && byteIs data 2 0xAA
          && byteIs data 3 0x01
          && byteIs data 4 0x03 then None
  else
    match byteAt data (List.length data - 2), byteAt data (List.length data - 1) with
    | Some c, Some v =>
        if (c <? ResponseCode_to_Z Volume) || (c >? ResponseCode_to_Z RearVolume)
        then None
        else
          match ResponseCode_of_Z c with
          | Some rc => Some {| code := rc; value := v |}
          | None => None
          end
    | _, _ => None
    end.

Definition inRange (value min max : Z) : bool :=
  (value >=? min) && (value <=? max).

(** What [applyResponse] returns: [true], [false], or the [OUT_OF_RANGE]
    sentinel. *)
Inductive ApplyResult : Set := Changed | Unchanged | OUT_OF_RANGE.

(** [applyResponse] mutates [state] in place; here it returns the state
    after the call next to its result. *)
Definition applyResponse (state : DeviceState) (response : ParsedResponse)
  : ApplyResult * DeviceState :=
  let value := value response in
  match code response with
  | Volume =>
      if negb (inRange value 0 36) then (OUT_OF_RANGE, state)
      else if volume state =? value then (Unchanged, state)
      else (Changed,
            mkDeviceState (power state) value (mute state) (source state)
              (preset state) (quietMode state) (bass state) (treble state)
              (centerVolume state) (rearVolume state) (balance state)
              (subwooferConnected state))
  | CenterVolume =>
      if negb (inRange value 0 30) then (OUT_OF_RANGE, state)
      else if centerVolume state =? value then (Unchanged, state)
      else (Changed,
            mkDeviceState (power state) (volume state) (mute state)
              (source state) (preset state) (quietMode state) (bass state)
              (treble state) value (rearVolume state) (balance state)
              (subwooferConnected state))
  | Treble =>
      if negb (inRange value 0 20) then (OUT_OF_RANGE, state)
      else if treble state =? value then (Unchanged, state)
      else (Changed,
            mkDeviceState (power state) (volume state) (mute state)
              (source state) (preset state) (quietMode state) (bass state)
              value (centerVolume state) (rearVolume state) (balance state)
              (subwooferConnected state))
  | Bass =>
      if negb (inRange value 0 20) then (OUT_OF_RANGE, state)
      else if bass state =? value then (Unchanged, state)
      else (Changed,
            mkDeviceState (power state) (volume state) (mute state)
              (source state) (preset state) (quietMode state) value
              (treble state) (centerVolume state) (rearVolume state)
              (balance state) (subwooferConnected state))
  | Mute =>
      if negb (inRange value 0 1) then (OUT_OF_RANGE, state)
      else
        let muted := value =? 1 in
        if Bool.eqb (mute state) muted then (Unchanged, state)
        else (Changed,
              mkDeviceState (power state) (volume state) muted
                (source state) (preset state) (quietMode state) (bass state)
                (treble state) (centerVolume state) (rearVolume state)
                (balance state) (subwooferConnected state))
  | QuietMode =>
      if negb (inRange value 0 1) then (OUT_OF_RANGE, state)
      else
        let on := value =? 1 in
        if Bool.eqb (quietMode state) on then (Unchanged, state)
        else (Changed,
              mkDeviceState (power state) (volume state) (mute state)
                (source state) (preset state) on (bass state)
                (treble state) (centerVolume state) (rearVolume state)
                (balance state) (subwooferConnected state))
  | Balance =>
      if negb (inRange value 0 100) then (OUT_OF_RANGE, state)
      else if balance state =? value then (Unchanged, state)
      else (Changed,
            mkDeviceState (power state) (volume state) (mute state)
              (source state) (preset state) (quietMode state) (bass state)
              (treble state) (centerVolume state) (rearVolume state) value
              (subwooferConnected state))
  | Source =>
      if negb (inRange value 0 3) then (OUT_OF_RANGE, state)
      else if source state =? value then (Unchanged, state)
      else (Changed,
            mkDeviceState (power state) (volume state) (mute state) value
              (preset state) (quietMode state) (bass state) (treble state)
              (centerVolume state) (rearVolume state) (balance state)
              (subwooferConnected state))
  | Power =>
      if negb (inRange value 0 1) then (OUT_OF_RANGE, state)
      else
        (* INVERTED: 0x00 = ON, 0x01 = OFF *)
        let on := value =? 0 in
        if Bool.eqb (power state) on then (Unchanged, state)
        else (Changed,
              mkDeviceState on (volume state) (mute state) (source state)
                (preset state) (quietMode state) (bass state)
                (treble state) (centerVolume state) (rearVolume state)
                (balance state) (subwooferConnected state))
  | Preset =>
      if negb (inRange value 0 3) then (OUT_OF_RANGE, state)
      else if preset state =? value then (Unchanged, state)
      else (Changed,
            mkDeviceState (power state) (volume state) (mute state)
              (source state) value (quietMode state) (bass state)
              (treble state) (centerVolume state) (rearVolume state)
              (balance state) (subwooferConnected state))
  | Subwoofer =>
      if negb (inRange value 0 1) then (OUT_OF_RANGE, state)
      else
        let connected := value =? 1 in
        if Bool.eqb (subwooferConnected state) connected
        then (Unchanged, state)
        else (Changed,
              mkDeviceState (power state) (volume state) (mute state)
                (source state) (preset state) (quietMode state) (bass state)
                (treble state) (centerVolume state) (rearVolume state)
                (balance state) connected)
  | RearVolume =>
      if negb (inRange value 0 30) then (OUT_OF_RANGE, state)
      else if rearVolume state =? value then (Unchanged, state)
      else (Changed,
            mkDeviceState (power state) (volume state) (mute state)
              (source state) (preset state) (quietMode state) (bass state)
              (treble state) (centerVolume state) value (balance state)
              (subwooferConnected state))
  | Layout | Covering | ArmType => (Unchanged, state)
  end.

End Responses.

(** ** [src/protocol/commands.ts] *)

Module Commands.
Import Js Settings Constants.

Record BleCommand : Set := mkBleCommand {
  characteristicUuid : string;
  data : Buffer
}.

(** Format A: [AA <cmdId> <subCmdId> 01 <value>]. *)
Definition formatA (cmdId subCmdId value : Z) : Buffer :=
  Buffer_from [0xAA; cmdId; subCmdId; 0x01; value].

(** Format B: [AA <cmdId> <value> 00]. *)
Definition formatB (cmdId value : Z) : Buffer :=
  Buffer_from [0xAA; cmdId; value; 0x00].

Definition eqCommand (subCmdId value : Z) : BleCommand :=
  {| characteristicUuid := CharUUID.EqControl;
     data := formatA 0x03 subCmdId value |}.

(** Volume: 0-36. *)
Definition setVolume (volume : Z) : BleCommand :=
  eqCommand 0x02 (Z.max 0 (Z.min 36 volume)).

(** Bass: 0-20. *)
Definition setBass (bass : Z) : BleCommand :=
  eqCommand 0x01 (Z.max 0 (Z.min 20 bass)).

(** Treble: 0-20. *)
Definition setTreble (treble : Z) : BleCommand :=
  eqCommand 0x00 (Z.max 0 (Z.min 20 treble)).

(** Center volume: 0-30. *)
Definition setCenterVolume (center : Z) : BleCommand :=
  eqCommand 0x03 (Z.max 0 (Z.min 30 center)).

(** Rear volume: 0-30. *)
Definition setRearVolume (rear : Z) : BleCommand :=
  eqCommand 0x0A (Z.max 0 (Z.min 30 rear)).

(** Mute: true = muted. *)
Definition setMute (muted : bool) : BleCommand :=
  eqCommand 0x09 (if muted then 1 else 0).

(** Quiet mode: true = on. *)
Definition setQuietMode (on : bool) : BleCommand :=
  eqCommand 0x04 (if on then 1 else 0).

(** Balance: 0-100 (50 = center). *)
Definition setBalance (balance : Z) : BleCommand :=
  {| characteristicUuid := CharUUID.AudioPath;
     data := formatA 0x04 0x00 (Z.max 0 (Z.min 100 balance)) |}.

(** Power: true = on, false = off (standby). *)
Definition setPower (on : bool) : BleCommand :=
  {| characteristicUuid := CharUUID.AudioPath;
     data := formatA 0x04 0x01 (if on then 1 else 0) |}.

(** Preset (sound mode). *)
Definition setPreset (preset : PresetWriteValue) : BleCommand :=
  {| characteristicUuid := CharUUID.EqControl;
     data := formatB 0x03 (PresetWriteValue_to_Z preset) |}.

(** Input source. *)
Definition setSource (source : SourceValue) : BleCommand :=
  {| characteristicUuid := CharUUID.Source;
     data := formatB 0x07 (SourceValue_to_Z source) |}.

(** Request the full device state dump. *)
Definition requestDeviceInfo : BleCommand :=
  {| characteristicUuid := CharUUID.DeviceInfo;
     data := formatB 0x01 0x01 |}.

(** Request version info: the last byte [01] tells it from the state
    request. *)
Definition requestVersionInfo : BleCommand :=
  {| characteristicUuid := CharUUID.DeviceInfo;
     data := Buffer_from [0xAA; 0x01; 0x01; 0x01] |}.

(** Play/Pause (Bluetooth source). *)
Definition setPlayPause (value : Z) : BleCommand :=
  {| characteristicUuid := CharUUID.PlayerControl;
     data := formatA 0x05 0x00 value |}.

(** Skip forward/backward (Bluetooth source). *)
Definition setSkip (value : Z) : BleCommand :=
  {| characteristicUuid := CharUUID.PlayerControl;
     data := formatA 0x05 0x01 value |}.

End Commands.

(** ** [src/protocol/LovesacDevice.ts]: the parts that do not touch the link *)

Module LovesacDevice.
Import Js Settings Constants Responses.

(** A registered callback is foreign code: it is known by the position it
    was registered at ([name]) and by whether it throws on given
    arguments. *)
Record StateChangeListener : Set := mkStateListener {
  sl_name : nat;
  sl_body : ResponseCode -> Z -> Completion
}.

Record VersionListener : Set := mkVersionListener {
  vl_name : nat;
  vl_body : unit -> Completion
}.

(** What a call of [handleNotification] does to the outside, in order. *)
Inductive Effect : Set :=
| CallState (name : nat) (code : ResponseCode) (value : Z)
| CallVersion (name : nat)
| LogInfo
| LogDebug
| LogWarn
| LogError.

Record Device : Set := mkDevice {
  state : DeviceState;
  stateListeners : list StateChangeListener;
  stateInitialized : bool;
  mcuVersion : string;
  versionListeners : list VersionListener
}.

(** The device as its constructor leaves it. *)
Definition new : Device :=
  {| state := createDefaultState;
     stateListeners := [];
     stateInitialized := false;
     mcuVersion := "";
     versionListeners := [] |}.

Definition onStateChange (listener : StateChangeListener) (d : Device)
  : Device :=
  mkDevice (state d) (stateListeners d ++ [listener]) (stateInitialized d)
    (mcuVersion d) (versionListeners d).

Definition onVersionResolved (callback : VersionListener) (d : Device)
  : Device :=
  mkDevice (state d) (stateListeners d) (stateInitialized d)
    (mcuVersion d) (versionListeners d ++ [callback]).

(** The source computes in double precision.  For an integer volume in
    [0, 36] the exact quotient [25 v / 9] stays at least [1/18] away from a
    tie, and for an integer percent in [0, 100] the exact [9 p / 25] stays
    at least [1/50] away, far more than the rounding error of two
    floating-point operations: [Math.round] of the double is [Math_round]
    of the exact rational. *)
Definition volumeToPercent (volume : Z) : Z :=
  Math_round ((inject_Z volume / inject_Z MAX_VOLUME) * 100)%Q.

Definition percentToVolume (percent : Z) : Z :=
  Math_round ((inject_Z percent / 100) * inject_Z MAX_VOLUME)%Q.

(** [for (const listener of this.versionListeners) { listener(); }]:
    a throwing listener ends the loop and the exception leaves it. *)
Fixpoint callVersionListeners (ls : list VersionListener)
  : list Effect * Completion :=
  match ls with
  | [] => ([], Normal)
  | listener :: rest =>
      match vl_body listener tt with
      | Throw => ([CallVersion (vl_name listener)], Throw)
      | Normal =>
          let (effs, c) := callVersionListeners rest in
          (CallVersion (vl_name listener) :: effs, c)
      end
  end.

(** [for (const listener of this.stateListeners) { try { listener(code,
    value); } catch (err) { this.log.error(...); } }]. *)
Fixpoint callStateListeners (ls : list StateChangeListener)
    (code : ResponseCode) (value : Z) : list Effect :=
  match ls with
  | [] => []
  | listener :: rest =>
      match sl_body listener code value with
      | Normal =>
          CallState (sl_name listener) code value
            :: callStateListeners rest code value
      | Throw =>
          CallState (sl_name listener) code value :: LogError
            :: callStateListeners rest code value
      end
  end.

(** [handleNotification]: the device after the call, what the call did,
    and whether it returned or threw. *)
Definition handleNotification (d : Device) (data : Buffer)
  : Device * list Effect * Completion :=
  (* version response: CC 05/06 AA 01 03 <type> <major> <minor> *)
  if (8 <=? List.length data)%nat
     && byteIs data 2 0xAA && byteIs data 3 0x01 && byteIs data 4 0x03
  then
    match byteAt data 6, byteAt data 7 with
    | Some major, Some minor =>
        let ver := (String_of_Z major ++ "." ++ String_of_Z minor)%string in
        if byteIs data 5 0x01 && negb (truthy (mcuVersion d)) then
          let d' := mkDevice (state d) (stateListeners d)
                      (stateInitialized d) ver (versionListeners d) in
          let (effs, c) := callVersionListeners (versionListeners d) in
          (d', LogInfo :: effs, c)
        else (d, [], Normal)
    | _, _ => (d, [], Normal)
    end
  else
    match parseNotification data with
    | None => (d, [LogDebug], Normal)
    | Some parsed =>
        match applyResponse (state d) parsed with
        | (OUT_OF_RANGE, _) => (d, [LogWarn], Normal)
        | (changed, st') =>
            let d' := mkDevice st' (stateListeners d) true (mcuVersion d)
                        (versionListeners d) in
            match changed with
            | Changed =>
                (d',
                 LogDebug :: callStateListeners (stateListeners d)
                               (code parsed) (value parsed),
                 Normal)
            | _ => (d', [], Normal)
            end
        end
    end.

End LovesacDevice.

(** ** [src/ble/BleClient.ts] *)

Module BleClient.
Import Js Settings.

(** The fields of a noble peripheral that [connect] reads. *)
Record Peripheral : Set := mkPeripheral {
  p_address : string;
  p_id : option string;
  p_uuid : option string
}.

(** How a scan ends: a matching peripheral, the scan timeout ([null]), or
    a rejection (adapter error). *)
Inductive ScanResult : Set :=
| Found (p : Peripheral)
| TimedOut
| ScanRejected.

(** The answers of the radio to the operations one call awaits. *)
Record Answers : Set := mkAnswers {
  scan : ScanResult;
  link_ok : bool;                      (* peripheral.connectAsync *)
  discovered : option (list string);   (* discoverSome...Async; None rejects *)
  subscribe_ok : bool;                 (* upstream.subscribeAsync *)
  io_ok : bool                         (* writeAsync, disconnectAsync *)
}.

(** Which scan [connect] starts. *)
Inductive ScanKind : Set :=
| ScanForDevice (address : string)
| ScanForAnyDevice.

Record BleClient : Set := mkClient {
  peripheral : option Peripheral;
  characteristics : list string;
  notificationHandler : bool;          (* non-null *)
  _connected : bool;
  _resolvedAddress : string
}.

Definition new : BleClient :=
  {| peripheral := None;
     characteristics := [];
     notificationHandler := false;
     _connected := false;
     _resolvedAddress := "" |}.

Definition hasCharacteristic (c : BleClient) (uuid : string) : bool :=
  existsb (String.eqb uuid) (characteristics c).

(** [peripheral.address !== '' && peripheral.address !== 'unknown'
     ? peripheral.address : peripheral.id ?? peripheral.uuid ?? 'unknown']. *)
Definition resolvedId (p : Peripheral) : string :=
  if negb (String.eqb (p_address p) "")
     && negb (String.eqb (p_address p) "unknown")
  then p_address p
  else match p_id p with
       | Some i => i
       | None => match p_uuid p with
                 | Some u => u
                 | None => "unknown"
                 end
       end.

(** [connect(address?)]: the client after the call, the scan it started
    (if any), and how the call ended. *)
Definition connect (address : option string) (a : Answers) (c : BleClient)
  : BleClient * list ScanKind * Completion :=
  if _connected c then (c, [], Normal)
  else
    let kind :=
      match address with
      | Some s => if truthy s then ScanForDevice s else ScanForAnyDevice
      | None => ScanForAnyDevice
      end in
    match scan a with
    | ScanRejected | TimedOut => (c, [kind], Throw)
    | Found p =>
        let c1 := mkClient (peripheral c) (characteristics c)
                    (notificationHandler c) (_connected c) (resolvedId p) in
        if link_ok a then
          let c2 := mkClient (Some p) (characteristics c1)
                      (notificationHandler c1) true (_resolvedAddress c1) in
          match discovered a with
          | None => (c2, [kind], Throw)
          | Some chars =>
              (mkClient (peripheral c2) (characteristics c2 ++ chars)
                 (notificationHandler c2) (_connected c2)
                 (_resolvedAddress c2),
               [kind], Normal)
          end
        else (c1, [kind], Throw)
    end.

(** [disconnect()]: an error of [disconnectAsync] is swallowed. *)
Definition disconnect (c : BleClient) : BleClient :=
  mkClient None [] (notificationHandler c) false (_resolvedAddress c).

Definition isConnected (c : BleClient) : bool := _connected c.

Definition write (characteristicUuid : string) (a : Answers) (c : BleClient)
  : Completion :=
  if hasCharacteristic c characteristicUuid
  then (if io_ok a then Normal else Throw)
  else Throw.

Definition subscribeNotifications (a : Answers) (c : BleClient)
  : BleClient * Completion :=
  let c1 := mkClient (peripheral c) (characteristics c) true (_connected c)
              (_resolvedAddress c) in
  if hasCharacteristic c1 CharUUID.UpStream
  then (c1, if subscribe_ok a then Normal else Throw)
  else (c1, Throw).

(** The [disconnect] event of the peripheral (the link dropped). *)
Definition onPeripheralDisconnect (c : BleClient) : BleClient :=
  mkClient None [] (notificationHandler c) false (_resolvedAddress c).

End BleClient.

(** ** [src/ble/BleConnectionManager.ts]

    The manager and its client live in a [World], next to the activations of
    [processQueue] that are parked at an [await], the number of promises
    handed out by [enqueue], and the trace of what has happened.  Logging is
    left out.

    An activation is resumed by an [Input] carrying the answers of the
    radio; between two inputs the code runs to its next pending [await], as
    JavaScript does.  The [await]s inside one [doConnect] (connect,
    subscribe) are taken in one step: nothing but [enqueue] touches the
    queue meanwhile, and [enqueue] may come before or after.  The states
    of the client between those [await]s (link up, characteristics not yet
    discovered) are therefore not worlds of the model.  The list of
    activations is not bounded by the model: that [processQueue] keeps it
    to one is a property, proved in Part II. *)

Module BleConnectionManager.
Import Js Commands BleClient.

(** A queued command; [handle] names the promise whose [resolve] and
    [reject] the source stores next to the command. *)
Record QueuedCommand : Set := mkQueued {
  command : BleCommand;
  handle : nat
}.

Record Manager : Set := mkManager {
  address : string;                          (* constructor, readonly *)
  queue : list QueuedCommand;
  processing : bool;
  idleTimer : bool;                          (* non-null: a timer is set *)
  connected : bool;
  connectPromise : bool;                     (* non-null *)
  resolvedAddress : string;
  onReconnectCallback : option (list BleCommand)
    (* the commands the registered callback enqueues before it returns *)
}.

Inductive Attempt : Set := First | Retry.

(** The [await] an activation of [processQueue] is parked at. *)
Inductive Await : Set :=
| AwaitConnect (att : Attempt) (own : bool)
    (* [await this.ensureConnected()]; [own]: this call started the attempt *)
| AwaitWrite (att : Attempt)         (* [await this.client.write(...)] *)
| AwaitDisconnect.                   (* [await this.client.disconnect()] *)

Record Activation : Set := mkActivation {
  item : QueuedCommand;
  parked : Await
}.

Inductive Event : Set :=
| Enqueued (q : QueuedCommand)
| ConnectCall (target : option string)     (* client.connect(target) *)
| Scanned (k : ScanKind)
| DisconnectCall                           (* client.disconnect() *)
| WriteCall (q : QueuedCommand)            (* client.write(uuid, data) *)
| Resolved (q : QueuedCommand)             (* item.resolve() *)
| Rejected (q : QueuedCommand)             (* item.reject(err) *)
| ReconnectCallback.

Record World : Set := mkWorld {
  mgr : Manager;
  client : BleClient;
  activations : list Activation;
  promises : nat;
  trace : list Event
}.

(** *** Field updates *)

Definition set_queue (q : list QueuedCommand) (m : Manager) : Manager :=
  mkManager (address m) q (processing m) (idleTimer m) (connected m)
    (connectPromise m) (resolvedAddress m) (onReconnectCallback m).

Definition set_processing (b : bool) (m : Manager) : Manager :=
  mkManager (address m) (queue m) b (idleTimer m) (connected m)
    (connectPromise m) (resolvedAddress m) (onReconnectCallback m).

Definition set_idleTimer (b : bool) (m : Manager) : Manager :=
  mkManager (address m) (queue m) (processing m) b (connected m)
    (connectPromise m) (resolvedAddress m) (onReconnectCallback m).

Definition set_connected (b : bool) (m : Manager) : Manager :=
  mkManager (address m) (queue m) (processing m) (idleTimer m) b
    (connectPromise m) (resolvedAddress m) (onReconnectCallback m).

Definition set_connectPromise (b : bool) (m : Manager) : Manager :=
  mkManager (address m) (queue m) (processing m) (idleTimer m) (connected m)
    b (resolvedAddress m) (onReconnectCallback m).

Definition set_resolvedAddress (a : string) (m : Manager) : Manager :=
  mkManager (address m) (queue m) (processing m) (idleTimer m) (connected m)
    (connectPromise m) a (onReconnectCallback m).

Definition withMgr (f : Manager -> Manager) (w : World) : World :=
  mkWorld (f (mgr w)) (client w) (activations w) (promises w) (trace w).

Definition withClient (c : BleClient) (w : World) : World :=
  mkWorld (mgr w) c (activations w) (promises w) (trace w).

Definition withActivations (l : list Activation) (w : World) : World :=
  mkWorld (mgr w) (client w) l (promises w) (trace w).

Definition log (es : list Event) (w : World) : World :=
  mkWorld (mgr w) (client w) (activations w) (promises w) (trace w ++ es).

Fixpoint replaceAt {A : Type} (i : nat) (x : A) (l : list A) : list A :=
  match l, i with
  | [], _ => []
  | _ :: t, O => x :: t
  | h :: t, S j => h :: replaceAt j x t
  end.

Fixpoint removeAt {A : Type} (i : nat) (l : list A) : list A :=
  match l, i with
  | [], _ => []
  | _ :: t, O => t
  | h :: t, S j => h :: removeAt j t
  end.

(** Activation [i] parks at [act]. *)
Definition park (i : nat) (act : Activation) (w : World) : World :=
  withActivations (replaceAt i act (activations w)) w.

(** *** The constructor *)

Definition new (address : string) (callback : option (list BleCommand))
  : World :=
  {| mgr := {| address := address;
               queue := [];
               processing := false;
               idleTimer := false;
               connected := false;
               connectPromise := false;
               resolvedAddress := address;
               onReconnectCallback := callback |};
     client := BleClient.new;
     activations := [];
     promises := 0;
     trace := [] |}.

Definition getResolvedAddress (w : World) : string :=
  resolvedAddress (mgr w).

(** *** Idle timer *)

Definition clearIdleTimer (m : Manager) : Manager := set_idleTimer false m.

Definition resetIdleTimer (m : Manager) : Manager :=
  set_idleTimer true (clearIdleTimer m).

(** *** [ensureConnected], up to its first [await] *)

Inductive Ensured : Set :=
| Ready                     (* returned: already connected *)
| Pending (own : bool).     (* awaiting a connection attempt *)

Definition ensureConnected (w : World) : World * Ensured :=
  if connected (mgr w) && isConnected (client w)
  then (withMgr resetIdleTimer w, Ready)
  else if connectPromise (mgr w)
  then (w, Pending false)
  else (log [ConnectCall (orUndefined (address (mgr w)))]
          (withMgr (set_connectPromise true) w),
        Pending true).

(** One [try] block of the loop body, up to its first pending [await]:
    [await this.ensureConnected(); await this.client.write(...)]. *)
Definition attempt (att : Attempt) (it : QueuedCommand) (w : World)
  : World * Activation :=
  let (w1, e) := ensureConnected w in
  match e with
  | Ready => (log [WriteCall it] w1, mkActivation it (AwaitWrite att))
  | Pending own => (w1, mkActivation it (AwaitConnect att own))
  end.

(** The [while] test, and the iteration it starts; [None] when the loop
    ends, through [finally { this.processing = false; }]. *)
Definition iterate (w : World) : World * option Activation :=
  match queue (mgr w) with
  | [] => (withMgr (set_processing false) w, None)
  | it :: rest =>
      let (w1, act) := attempt First it (withMgr (set_queue rest) w) in
      (w1, Some act)
  end.

Definition processQueue (w : World) : World :=
  if processing (mgr w) then w
  else
    let (w1, act) := iterate (withMgr (set_processing true) w) in
    match act with
    | Some a => withActivations (activations w1 ++ [a]) w1
    | None => w1
    end.

Definition enqueue (command : BleCommand) (w : World) : World :=
  let q := mkQueued command (promises w) in
  let w1 := mkWorld (set_queue (queue (mgr w) ++ [q]) (mgr w)) (client w)
              (activations w) (S (promises w)) (trace w ++ [Enqueued q]) in
  processQueue w1.

(** *** [doConnect], run when the radio answers *)

Definition doConnect (a : Answers) (w : World) : World * Completion :=
  let m := mgr w in
  let '(c1, scans, r) := connect (orUndefined (address m)) a (client w) in
  let w1 := log (map Scanned scans) (withClient c1 w) in
  match r with
  | Throw => (withMgr (set_connected false) w1, Throw)
  | Normal =>
      (* after first connect, lock to the resolved address for reconnects *)
      let w2 :=
        if negb (truthy (address m)) && truthy (_resolvedAddress c1)
        then withMgr (set_resolvedAddress (_resolvedAddress c1)) w1
        else w1 in
      let (c2, r2) := subscribeNotifications a c1 in
      let w3 := withClient c2 w2 in
      match r2 with
      | Throw => (withMgr (set_connected false) w3, Throw)
      | Normal =>
          let w4 := withMgr resetIdleTimer
                      (withMgr (set_connected true) w3) in
          match onReconnectCallback m with
          | Some cmds =>
              (fold_left (fun w' c => enqueue c w') cmds
                 (log [ReconnectCallback] w4),
               Normal)
          | None => (w4, Normal)
          end
      end
  end.

(** [disconnect()], as the idle timer calls it. *)
Definition disconnect (w : World) : World :=
  let w1 := withMgr (set_connected false) (withMgr clearIdleTimer w) in
  log [DisconnectCall] (withClient (BleClient.disconnect (client w1)) w1).

(** *** The loop body past its [await]s *)

(** After an item settles: back to the [while] test. *)
Definition next (i : nat) (w : World) : World :=
  let (w1, act) := iterate w in
  match act with
  | Some a => park i a w1
  | None => withActivations (removeAt i (activations w1)) w1
  end.

(** An [await] of the [try] block threw. *)
Definition fail (att : Attempt) (i : nat) (it : QueuedCommand) (w : World)
  : World :=
  match att with
  | First =>
      (* on write failure, disconnect and retry once *)
      park i (mkActivation it AwaitDisconnect)
        (log [DisconnectCall] (withMgr (set_connected false) w))
  | Retry => next i (log [Rejected it] w)
  end.

(** Activation [i] is resumed with the answers of the radio. *)
Definition resume (i : nat) (a : Answers) (w : World) : World :=
  match nth_error (activations w) i with
  | None => w
  | Some act =>
      let it := item act in
      match parked act with
      | AwaitConnect att own =>
          let (w1, r) :=
            if own then
              let (w', r) := doConnect a w in
              (withMgr (set_connectPromise false) w', r)
            else (w, if io_ok a then Normal else Throw) in
          match r with
          | Normal =>
              park i (mkActivation it (AwaitWrite att))
                (log [WriteCall it] w1)
          | Throw => fail att i it w1
          end
      | AwaitWrite att =>
          match write (characteristicUuid (command it)) a (client w) with
          | Normal =>
              next i (log [Resolved it] (withMgr resetIdleTimer w))
          | Throw => fail att i it w
          end
      | AwaitDisconnect =>
          let w1 := withClient (BleClient.disconnect (client w)) w in
          let (w2, act') := attempt Retry it w1 in
          park i act' w2
      end
  end.

(** *** What the outside can do to the manager *)

Inductive Input : Set :=
| Enqueue (c : BleCommand)             (* a caller runs [enqueue(c)] *)
| Resume (i : nat) (a : Answers)       (* the radio answers activation [i] *)
| IdleTimeout                          (* the idle timer fires *)
| LinkDropped                          (* the peripheral disconnects *)
| Notification.                        (* an UpStream notification arrives *)

Definition step (inp : Input) (w : World) : World :=
  match inp with
  | Enqueue c => enqueue c w
  | Resume i a => resume i a w
  | IdleTimeout => if idleTimer (mgr w) then disconnect w else w
  | LinkDropped => withClient (onPeripheralDisconnect (client w)) w
  | Notification =>
      if isConnected (client w) && notificationHandler (client w)
      then withMgr resetIdleTimer w
      else w
  end.

Definition run (inps : list Input) (w : World) : World :=
  fold_left (fun w' inp => step inp w') inps w.

(** *** Readings of the trace *)

Definition enqueuedOf (e : Event) : option QueuedCommand :=
  match e with Enqueued q => Some q | _ => None end.

Definition writtenOf (e : Event) : option QueuedCommand :=
  match e with WriteCall q => Some q | _ => None end.

Definition settledOf (e : Event) : option QueuedCommand :=
  match e with Resolved q | Rejected q => Some q | _ => None end.

Definition targetOf (e : Event) : option (option string) :=
  match e with ConnectCall t => Some t | _ => None end.

Definition scanOf (e : Event) : option ScanKind :=
  match e with Scanned k => Some k | _ => None end.

Fixpoint pick {A B : Type} (f : A -> option B) (l : list A) : list B :=
  match l with
  | [] => []
  | x :: t => match f x with
              | Some y => y :: pick f t
              | None => pick f t
              end
  end.

(** The commands enqueued, written and settled so far, in order. *)
Definition enqueued (w : World) : list QueuedCommand := pick enqueuedOf (trace w).
Definition written (w : World) : list QueuedCommand := pick writtenOf (trace w).
Definition settled (w : World) : list QueuedCommand := pick settledOf (trace w).
Definition targets (w : World) : list (option string) := pick targetOf (trace w).
Definition scans (w : World) : list ScanKind := pick scanOf (trace w).


End BleConnectionManager.

(* ================================================================== *)
(** * Part II: properties                                               *)
(* ================================================================== *)

(** ** The state store: [createDefaultState] and [applyResponse] *)

Section StateStore.
Import Js Constants Responses.

(** The codes whose field starts at the out-of-domain value [-1]. *)
Definition hasSentinel (c : ResponseCode) : bool :=
  match c with
  | Volume | CenterVolume | Treble | Bass | Balance | Source | Preset
  | RearVolume => true
  | _ => false
  end.

(** The range [applyResponse] checks a value of each code against; the
    codes of its [default] branch have none. *)
Definition declaredRange (c : ResponseCode) : option (Z * Z) :=
  match c with
  | Volume => Some (0, 36)
  | CenterVolume | RearVolume => Some (0, 30)
  | Treble | Bass => Some (0, 20)
  | Mute | QuietMode | Power | Subwoofer => Some (0, 1)
  | Balance => Some (0, 100)
  | Source | Preset => Some (0, 3)
  | Layout | Covering | ArmType => None
  end.

Definition validFor (c : ResponseCode) (v : Z) : Prop :=
  match declaredRange c with
  | Some (lo, hi) => lo <= v <= hi
  | None => False
  end.

Lemma inRange_spec (v lo hi : Z) :
  inRange v lo hi = true <-> lo <= v <= hi.
Proof.
  unfold inRange. rewrite andb_true_iff, Z.geb_le, Z.leb_le. lia.
Qed.

Lemma inRange_true (v lo hi : Z) : lo <= v <= hi -> inRange v lo hi = true.
Proof. apply inRange_spec. Qed.

(** [applyResponse] signals out-of-range exactly outside the declared
    range. *)
Lemma applyResponse_valid (st : DeviceState) (c : ResponseCode) (v : Z) :
  validFor c v -> fst (applyResponse st (mkParsed c v)) <> OUT_OF_RANGE.
Proof.
  unfold validFor, applyResponse; destruct c; cbn [declaredRange code value];
    intro H; try contradiction;
    rewrite (inRange_true _ _ _ H); cbn [negb];
    match goal with
    | |- context [if ?b then _ else _] => destruct b
    end; cbn; discriminate.
Qed.

(** Applying a pair a second time, right after the first, never reports a
    change. *)
Lemma applyResponse_again (st : DeviceState) (r : ParsedResponse) :
  fst (applyResponse (snd (applyResponse st r)) r) <> Changed.
Proof.
  destruct r as [c v]; destruct st; unfold applyResponse;
    destruct c; cbn [code value power volume mute source preset quietMode
                     bass treble centerVolume rearVolume balance
                     subwooferConnected];
    try (cbn; discriminate);
    match goal with
    | |- context [negb (inRange ?x ?lo ?hi)] =>
        destruct (inRange x lo hi) eqn:Hr; cbn [negb]
    end;
    try (cbn; rewrite ?Hr; cbn; discriminate);
    first
      [ match goal with
        | |- context [Bool.eqb ?a ?b] => is_var a; destruct (Bool.eqb a b) eqn:Hb
        end
      | match goal with
        | |- context [?a =? v] => is_var a; destruct (a =? v) eqn:Hb
        end ];
    cbn [fst snd power volume mute source preset quietMode bass treble
         centerVolume rearVolume balance subwooferConnected];
    rewrite ?Hr, ?Hb, ?Z.eqb_refl, ?eqb_reflx; cbn; discriminate.
Qed.

(** For a field that starts at the sentinel, the first valid observation
    on a fresh state is reported as a change. *)
Lemma applyResponse_first_sentinel (c : ResponseCode) (v : Z) :
  hasSentinel c = true -> validFor c v ->
  fst (applyResponse createDefaultState (mkParsed c v)) = Changed.
Proof.
  unfold validFor; destruct c; cbn [hasSentinel declaredRange];
    try discriminate; intros _ H;
    unfold applyResponse; cbn [code value];
    rewrite (inRange_true _ _ _ H); cbn [negb];
    unfold createDefaultState;
    cbn [volume centerVolume treble bass balance source preset rearVolume];
    destruct (Z.eqb_spec (-1) v); try lia; reflexivity.
Qed.

(** C1.  The specification says the first valid observation of every field on a
    fresh state is reported as a change.  The boolean fields start at
    [false], a value the device can report: a first [Mute = 0] (and
    likewise [QuietMode = 0], [Subwoofer = 0], [Power = 1]) is valid for
    its range and yet reported as unchanged, the state left as it was. *)
Theorem applyResponse_first_boolean_unchanged :
  validFor Mute 0
  /\ applyResponse createDefaultState (mkParsed Mute 0)
     = (Unchanged, createDefaultState)
  /\ applyResponse createDefaultState (mkParsed QuietMode 0)
     = (Unchanged, createDefaultState)
  /\ applyResponse createDefaultState (mkParsed Subwoofer 0)
     = (Unchanged, createDefaultState)
  /\ applyResponse createDefaultState (mkParsed Power 1)
     = (Unchanged, createDefaultState).
Proof.
  repeat split; cbn; lia.
Qed.

(** C5.  A power status of [0x00] leaves [power = true] and [0x01] leaves
    [power = false] (inverted polarity); mute, quiet mode and
    subwoofer-connected are set with natural polarity, [1] meaning
    [true]. *)
Theorem applyResponse_polarity (st : DeviceState) :
  power (snd (applyResponse st (mkParsed Power 0x00))) = true
  /\ power (snd (applyResponse st (mkParsed Power 0x01))) = false
  /\ mute (snd (applyResponse st (mkParsed Mute 1))) = true
  /\ mute (snd (applyResponse st (mkParsed Mute 0))) = false
  /\ quietMode (snd (applyResponse st (mkParsed QuietMode 1))) = true
  /\ quietMode (snd (applyResponse st (mkParsed QuietMode 0))) = false
  /\ subwooferConnected (snd (applyResponse st (mkParsed Subwoofer 1))) = true
  /\ subwooferConnected (snd (applyResponse st (mkParsed Subwoofer 0))) = false.
Proof.
  destruct st as [p vol m src pre q b t cv rv bal sub];
    destruct p, m, q, sub; repeat split; reflexivity.
Qed.

End StateStore.

(** ** The codec: [parseNotification] and the command encoders *)

Section Codec.
Import Js Settings Constants Responses Commands.

(** The version-response shape as the specification words it: at least
    eight bytes, with [AA 01 03] at offsets 2 to 4. *)
Definition versionResponseShape (data : Buffer) : bool :=
  (8 <=? List.length data)%nat
  && byteIs data 2 0xAA && byteIs data 3 0x01 && byteIs data 4 0x03.

(** The bytes [parseNotification] looks for: [AA 01 03] at offsets 2 to 4
    of a frame of at least five bytes. *)
Definition versionMarker (data : Buffer) : bool :=
  (5 <=? List.length data)%nat
  && byteIs data 2 0xAA && byteIs data 3 0x01 && byteIs data 4 0x03.

(** When a frame yields a result, in the words of the specification. *)
Definition specParseable (data : Buffer) : bool :=
  (4 <=? List.length data)%nat
  && negb (versionResponseShape data)
  && match byteAt data (List.length data - 2) with
     | Some c => (0x01 <=? c) && (c <=? 0x0F)
     | None => false
     end.

Lemma ResponseCode_of_to_Z (c : ResponseCode) :
  ResponseCode_of_Z (ResponseCode_to_Z c) = Some c.
Proof. destruct c; reflexivity. Qed.

Lemma ResponseCode_of_Z_inv (n : Z) (c : ResponseCode) :
  ResponseCode_of_Z n = Some c -> ResponseCode_to_Z c = n.
Proof.
  unfold ResponseCode_of_Z.
  repeat match goal with
         | |- context [match ?x with _ => _ end] => destruct x
         end;
    intro H; inversion H; reflexivity.
Qed.

Lemma ResponseCode_of_Z_known (n : Z) :
  0x01 <= n <= 0x0F -> exists c, ResponseCode_of_Z n = Some c.
Proof.
  intro H.
  assert (Hn : n = 1 \/ n = 2 \/ n = 3 \/ n = 4 \/ n = 5 \/ n = 6 \/ n = 7
               \/ n = 8 \/ n = 9 \/ n = 10 \/ n = 11 \/ n = 12 \/ n = 13
               \/ n = 14 \/ n = 15) by lia.
  repeat (destruct Hn as [-> | Hn]; [eexists; reflexivity |]).
  subst n; eexists; reflexivity.
Qed.

(** A frame one byte past the marker, too short for a version report:
    the specification's conditions hold of it (five bytes, not the
    eight-byte version shape, code byte [0x01]) and [parseNotification]
    yields no result. *)
Lemma parseNotification_drops_short_marker_frame :
  let data := [0xCC; 0x05; 0xAA; 0x01; 0x03] in
  specParseable data = true /\ parseNotification data = None.
Proof. split; reflexivity. Qed.

(** The results of [parseNotification], characterised. *)
Lemma parseNotification_result (data : Buffer) (r : ParsedResponse) :
  parseNotification data = Some r
  <-> ((4 <= List.length data)%nat
       /\ versionMarker data = false
       /\ byteAt data (List.length data - 2)
          = Some (ResponseCode_to_Z (code r))
       /\ byteAt data (List.length data - 1) = Some (value r)).
Proof.
  unfold parseNotification, versionMarker.
  destruct (Nat.ltb_spec (List.length data) 4) as [Hlt | Hge].
  - split; [discriminate | intros [H _]; lia].
  - destruct ((5 <=? List.length data)%nat && byteIs data 2 170
              && byteIs data 3 1 && byteIs data 4 3) eqn:Hm.
    + split; [discriminate | intros (_ & H & _); discriminate].
    + destruct (byteAt data (List.length data - 2)) as [c |] eqn:Hc;
        [| split; [discriminate | intros (_ & _ & H & _); discriminate]].
      destruct (byteAt data (List.length data - 1)) as [v |] eqn:Hv;
        [| split; [discriminate | intros (_ & _ & _ & H); discriminate]].
      destruct ((c <? ResponseCode_to_Z Volume)
                || (c >? ResponseCode_to_Z RearVolume)) eqn:Hcode.
      * split; [discriminate |].
        intros (_ & _ & H & _). inversion H; subst c.
        destruct (code r); discriminate.
      * destruct (ResponseCode_of_Z c) as [rc |] eqn:Hrc.
        -- apply ResponseCode_of_Z_inv in Hrc. split.
           ++ intro H; inversion H; subst r; cbn [code value].
              repeat split; auto; congruence.
           ++ intros (_ & _ & H1 & H2). destruct r as [rc' v'].
              cbn [code value] in *. inversion H2; subst v'.
              inversion H1 as [H3]. rewrite <- Hrc in H3.
              f_equal. f_equal. destruct rc, rc'; try discriminate; reflexivity.
        -- exfalso. apply orb_false_iff in Hcode as [H1 H2].
           apply Z.ltb_ge in H1. cbn in H1, H2.
           assert (c <= 15) by (destruct (Z.gtb_spec c 15); [discriminate | lia]).
           destruct (ResponseCode_of_Z_known c) as [x Hx]; [lia | congruence].
Qed.

(** C7, amended.  [parseNotification] yields a result exactly when the
    frame has at least four bytes, does not carry [AA 01 03] at offsets 2
    to 4 (a frame of five bytes or more), and its second-to-last byte lies
    in [0x01, 0x0F]; the result's code is that byte and its value is the
    last byte. *)
Theorem parseNotification_iff (data : Buffer) :
  ((exists r, parseNotification data = Some r)
   <-> ((4 <= List.length data)%nat
        /\ versionMarker data = false
        /\ exists c, byteAt data (List.length data - 2) = Some c
                     /\ 0x01 <= c <= 0x0F))
  /\ (forall r, parseNotification data = Some r ->
        byteAt data (List.length data - 2)
        = Some (ResponseCode_to_Z (code r))
        /\ byteAt data (List.length data - 1) = Some (value r)).
Proof.
  split.
  - split.
    + intros [r Hr]. apply parseNotification_result in Hr.
      destruct Hr as (Hlen & Hm & Hc & _). repeat split; auto.
      exists (ResponseCode_to_Z (code r)). split; auto.
      destruct (code r); cbn; lia.
    + intros (Hlen & Hm & c & Hc & Hrange).
      destruct (ResponseCode_of_Z_known c Hrange) as [rc Hrc].
      destruct (byteAt data (List.length data - 1)) as [v |] eqn:Hv.
      * exists (mkParsed rc v). apply parseNotification_result.
        cbn [code value]. repeat split; auto.
        rewrite (ResponseCode_of_Z_inv _ _ Hrc). exact Hc.
      * exfalso. unfold byteAt in Hv. apply nth_error_None in Hv. lia.
  - intros r Hr. apply parseNotification_result in Hr. tauto.
Qed.

(** The value byte of a format-A frame. *)
Definition valueByte (c : BleCommand) : option Z := byteAt (data c) 4.

Lemma toUint8_mod (n : Z) : toUint8 n = n mod 256.
Proof. unfold toUint8. change 255 with (Z.ones 8). apply Z.land_ones. lia. Qed.

Lemma toUint8_small (n : Z) : 0 <= n <= 255 -> toUint8 n = n.
Proof. intro H. rewrite toUint8_mod. apply Z.mod_small. lia. Qed.

Lemma formatA_clamped (cmdId subCmdId hi v : Z) :
  0 <= cmdId <= 255 -> 0 <= subCmdId <= 255 -> 0 <= hi <= 255 ->
  formatA cmdId subCmdId (Z.max 0 (Z.min hi v))
  = [0xAA; cmdId; subCmdId; 0x01; Z.max 0 (Z.min hi v)].
Proof.
  intros Hc Hs Hh. unfold formatA, Buffer_from. cbn [map].
  rewrite !toUint8_small by lia. reflexivity.
Qed.

(** [setPlayPause] does not clamp: no range makes its value byte the
    clamped input (it sends 0 for 0, 255 for 255 and 0 again for 256). *)
Lemma setPlayPause_does_not_clamp :
  ~ exists lo hi : Z,
      forall v : Z,
        valueByte (setPlayPause v) = Some (Z.max lo (Z.min hi v)).
Proof.
  intros (lo & hi & H).
  pose proof (H 0) as H0. pose proof (H 255) as H255.
  pose proof (H 256) as H256.
  change (valueByte (setPlayPause 0)) with (Some 0) in H0.
  change (valueByte (setPlayPause 255)) with (Some 255) in H255.
  change (valueByte (setPlayPause 256)) with (Some 0) in H256.
  inversion H0; inversion H255; inversion H256. lia.
Qed.

(** C6, amended.  For every integer input, the six encoders with a
    documented range (volume, bass, treble, centre, rear, balance) return
    a frame whose value byte is the input clamped to that range;
    [setPlayPause] and [setSkip] return a frame too, with the low eight
    bits of the input as its value byte, unclamped. *)
Theorem encoders_clamp_or_pass (v : Z) :
  (data (setVolume v) = [0xAA; 0x03; 0x02; 0x01; Z.max 0 (Z.min 36 v)]
   /\ 0 <= Z.max 0 (Z.min 36 v) <= 36)
  /\ (data (setBass v) = [0xAA; 0x03; 0x01; 0x01; Z.max 0 (Z.min 20 v)]
      /\ 0 <= Z.max 0 (Z.min 20 v) <= 20)
  /\ (data (setTreble v) = [0xAA; 0x03; 0x00; 0x01; Z.max 0 (Z.min 20 v)]
      /\ 0 <= Z.max 0 (Z.min 20 v) <= 20)
  /\ (data (setCenterVolume v)
      = [0xAA; 0x03; 0x03; 0x01; Z.max 0 (Z.min 30 v)]
      /\ 0 <= Z.max 0 (Z.min 30 v) <= 30)
  /\ (data (setRearVolume v)
      = [0xAA; 0x03; 0x0A; 0x01; Z.max 0 (Z.min 30 v)]
      /\ 0 <= Z.max 0 (Z.min 30 v) <= 30)
  /\ (data (setBalance v) = [0xAA; 0x04; 0x00; 0x01; Z.max 0 (Z.min 100 v)]
      /\ 0 <= Z.max 0 (Z.min 100 v) <= 100)
  /\ data (setPlayPause v) = [0xAA; 0x05; 0x00; 0x01; v mod 256]
  /\ data (setSkip v) = [0xAA; 0x05; 0x01; 0x01; v mod 256].
Proof.
  unfold setVolume, setBass, setTreble, setCenterVolume, setRearVolume,
    setBalance, setPlayPause, setSkip, eqCommand; cbn [data].
  rewrite !formatA_clamped by lia.
  unfold formatA, Buffer_from; cbn [map]. rewrite !toUint8_mod.
  repeat split; try lia; reflexivity.
Qed.

(** C10.  [setPower on] is the frame [AA 04 01 01 <on ? 1 : 0>] on the
    AudioPath characteristic (natural polarity); the byte written for ON,
    read as a power status, means OFF, and the byte written for OFF means
    ON. *)
Theorem setPower_natural_polarity (on : bool) (st : DeviceState) :
  setPower on
  = {| characteristicUuid := CharUUID.AudioPath;
       data := [0xAA; 0x04; 0x01; 0x01; if on then 1 else 0] |}
  /\ valueByte (setPower true) = Some 1
  /\ power (snd (applyResponse st (mkParsed Power 1))) = false
  /\ valueByte (setPower false) = Some 0
  /\ power (snd (applyResponse st (mkParsed Power 0))) = true.
Proof.
  repeat split; try (destruct on; reflexivity);
    destruct st as [p vol m src pre q b t cv rv bal sub];
    destruct p; reflexivity.
Qed.

End Codec.

(** ** The device: volume rescaling and listener broadcast *)

Section Device.
Import Js Settings Constants Responses LovesacDevice.

(** On the native range the round trip through percent is exact. *)
Lemma percentToVolume_volumeToPercent (v : Z) :
  0 <= v <= 36 -> percentToVolume (volumeToPercent v) = v.
Proof.
  intro H.
  assert (Hn : exists n, (n <= 36)%nat /\ v = Z.of_nat n).
  { exists (Z.to_nat v). split; lia. }
  destruct Hn as (n & Hn & ->).
  do 37 (destruct n as [| n]; [vm_compute; reflexivity |]).
  lia.
Qed.

(** C8.  For every volume [v] in [0, 36],
    [percentToVolume (volumeToPercent v)] differs from [v] by at most 1,
    both rescales rounding to the nearest integer. *)
Theorem volume_percent_roundtrip (v : Z) :
  0 <= v <= 36 -> Z.abs (percentToVolume (volumeToPercent v) - v) <= 1.
Proof.
  intro H. rewrite (percentToVolume_volumeToPercent v H). lia.
Qed.

Lemma volume_percent_roundtrip_witness :
  0 <= 17 <= 36 /\ Z.abs (percentToVolume (volumeToPercent 17) - 17) <= 1.
Proof.
  split; [lia | apply (volume_percent_roundtrip 17); lia].
Defined.

(** The rescales round, they do not truncate: 1 of 36 is 2.78 percent and
    reported as 3; 99 percent is 35.64 and reported as 36. *)
Lemma rescale_rounds :
  volumeToPercent 1 = 3 /\ percentToVolume 99 = 36.
Proof. split; reflexivity. Qed.

Definition calledVersion (e : Effect) : option nat :=
  match e with CallVersion n => Some n | _ => None end.

Definition calledState (e : Effect) : option nat :=
  match e with CallState n _ _ => Some n | _ => None end.

Fixpoint names {A : Type} (f : A -> option nat) (l : list A) : list nat :=
  match l with
  | [] => []
  | x :: t => match f x with
              | Some n => n :: names f t
              | None => names f t
              end
  end.

(** The state-change broadcast calls every listener, in registration
    order, whether or not some of them throw. *)
Lemma callStateListeners_all (ls : list StateChangeListener)
    (c : ResponseCode) (v : Z) :
  names calledState (callStateListeners ls c v) = map sl_name ls.
Proof.
  induction ls as [| l ls IH]; cbn [callStateListeners map]; [reflexivity |].
  destruct (sl_body l c v); cbn [names calledState]; now rewrite IH.
Qed.

(** The version broadcast stops at the first listener that throws. *)
Lemma callVersionListeners_stops (before after : list VersionListener)
    (l : VersionListener) :
  Forall (fun x => vl_body x tt = Normal) before ->
  vl_body l tt = Throw ->
  callVersionListeners (before ++ l :: after)
  = (map (fun x => CallVersion (vl_name x)) (before ++ [l]), Throw).
Proof.
  intros Hb Hl. induction Hb as [| x before Hx Hb IH]; cbn.
  - now rewrite Hl.
  - rewrite Hx. cbn in IH. now rewrite IH.
Qed.

(** A device with two version listeners, the first of which throws. *)
Definition twoVersionListeners : Device :=
  onVersionResolved (mkVersionListener 1 (fun _ => Normal))
    (onVersionResolved (mkVersionListener 0 (fun _ => Throw))
       LovesacDevice.new).

(** The MCU version report [CC 06 AA 01 03 01 01 47] (version 1.71). *)
Definition mcuVersionReport : Buffer :=
  [0xCC; 0x06; 0xAA; 0x01; 0x03; 0x01; 0x01; 0x47].

(** C9.  The specification says a throwing listener never keeps the remaining
    listeners of its list from being called, for both lists.  It holds of
    the state-change list, whose calls are each wrapped in [try]/[catch];
    the version list is called without one: with two version listeners
    registered, the first throwing, a version report calls the first
    only, and the exception leaves [handleNotification]. *)
Theorem version_listener_throw_skips_rest :
  let '(d, effects, completion) :=
    handleNotification twoVersionListeners mcuVersionReport in
  mcuVersion d = "1.71"%string
  /\ names calledVersion effects = [0%nat]
  /\ completion = Throw.
Proof. vm_compute. repeat split. Qed.

End Device.

(** ** The link supervisor: queue order, single flight, retry *)

Section Supervisor.
Import Js Commands BleClient BleConnectionManager.

(** *** Lists *)

Lemma pick_app {A B : Type} (f : A -> option B) (l1 l2 : list A) :
  pick f (l1 ++ l2) = pick f l1 ++ pick f l2.
Proof.
  induction l1 as [| x l1 IH]; cbn [pick app]; [reflexivity |].
  destruct (f x); cbn [app]; now rewrite IH.
Qed.

Lemma map_seq_middle {A : Type} (f : A -> nat) (a b : list A) (x : A) :
  forall s n, map f (a ++ x :: b) = seq s n -> f x = (s + List.length a)%nat.
Proof.
  induction a as [| y a IH]; intros s n H; destruct n as [| n];
    cbn in H; try discriminate.
  - inversion H. cbn. lia.
  - inversion H as [[Hy Ht]]. apply IH in Ht. cbn [List.length]. lia.
Qed.

Lemma count_occ_above (l : list nat) (k h : nat) :
  Forall (fun x => (x <= k)%nat) l -> (k < h)%nat ->
  count_occ Nat.eq_dec l h = 0%nat.
Proof.
  intros Hl Hk. apply count_occ_not_In. intro Hin.
  rewrite Forall_forall in Hl. apply Hl in Hin. lia.
Qed.

Lemma count_occ_snoc (l : list nat) (x h : nat) :
  count_occ Nat.eq_dec (l ++ [x]) h
  = (count_occ Nat.eq_dec l h + (if Nat.eq_dec x h then 1 else 0))%nat.
Proof.
  rewrite count_occ_app. cbn [count_occ]. destruct (Nat.eq_dec x h); lia.
Qed.

Lemma StronglySorted_snoc (l : list nat) (x : nat) :
  StronglySorted le l -> Forall (fun y => (y <= x)%nat) l ->
  StronglySorted le (l ++ [x]).
Proof.
  induction 1 as [| y l Hs IH Hy]; intro Hx; cbn [app].
  - repeat constructor.
  - inversion Hx; subst. constructor; [auto |].
    apply Forall_app. split; [assumption | repeat constructor; assumption].
Qed.

(** *** Writes happen in turn

    [inTurn k tr]: along [tr], started with [k] commands settled, every
    write is for the command whose handle is the number of commands
    settled before it. *)
Fixpoint inTurn (k : nat) (tr : list Event) : Prop :=
  match tr with
  | [] => True
  | e :: t =>
      match e with
      | WriteCall x => handle x = k
      | _ => True
      end
      /\ inTurn (match settledOf e with Some _ => S k | None => k end) t
  end.

Lemma inTurn_app (k : nat) (tr es : list Event) :
  inTurn k (tr ++ es)
  <-> inTurn k tr /\ inTurn (k + List.length (pick settledOf tr)) es.
Proof.
  revert k. induction tr as [| e tr IH]; intro k; cbn [app inTurn pick].
  - rewrite Nat.add_0_r. tauto.
  - rewrite IH. destruct (settledOf e); cbn [List.length];
      rewrite ?Nat.add_succ_r; cbn [Nat.add]; tauto.
Qed.

Lemma inTurn_ge (es : list Event) :
  forall k, inTurn k es ->
            Forall (fun h => (k <= h)%nat) (map handle (pick writtenOf es)).
Proof.
  induction es as [| e es IH]; intros k H; cbn [pick map]; [constructor |].
  destruct H as [He Ht].
  assert (Hr : Forall (fun h => (k <= h)%nat)
                 (map handle (pick writtenOf es))).
  { destruct (settledOf e); [| now apply IH].
    eapply Forall_impl; [| apply (IH (S k) Ht)]. cbn. intros; lia. }
  destruct e; cbn [writtenOf map]; auto.
  constructor; [lia | assumption].
Qed.

(** *** The bookkeeping invariant

    [cur] holds the item of the running iteration (none when the list is
    empty); [lo] and [hi] bound the writes issued for it so far. *)

Definition handles (l : list QueuedCommand) : list nat := map handle l.

Definition writesOf (h : nat) (tr : list Event) : nat :=
  count_occ Nat.eq_dec (handles (pick writtenOf tr)) h.

Record Books (cur q : list QueuedCommand) (n : nat) (tr : list Event)
    (lo hi : nat) : Prop := mkBooks {
  b_enq : pick enqueuedOf tr = pick settledOf tr ++ cur ++ q;
  b_handles : handles (pick enqueuedOf tr) = seq 0 n;
  b_le : Forall (fun h => (h <= List.length (pick settledOf tr))%nat)
           (handles (pick writtenOf tr));
  b_sorted : StronglySorted le (handles (pick writtenOf tr));
  b_twice : forall h, (writesOf h tr <= 2)%nat;
  b_in : incl (pick writtenOf tr) (pick settledOf tr ++ cur);
  b_lo : (lo <= writesOf (List.length (pick settledOf tr)) tr)%nat;
  b_hi : (writesOf (List.length (pick settledOf tr)) tr <= hi)%nat;
  b_cur : (List.length cur <= 1)%nat;
  b_idle : cur = [] -> hi = 0%nat;
  b_turn : inTurn 0 tr
}.

Definition neutral (e : Event) : Prop :=
  enqueuedOf e = None /\ writtenOf e = None /\ settledOf e = None.

Lemma inTurn_neutral (es : list Event) (k : nat) :
  Forall neutral es -> inTurn k es.
Proof.
  induction 1 as [| e es (_ & H2 & H3) _ IH]; cbn [inTurn]; [exact I |].
  rewrite H3. split; [| exact IH]. destruct e; try exact I. discriminate.
Qed.

Lemma Books_neutral cur q n tr lo hi (es : list Event) :
  Forall neutral es ->
  Books cur q n tr lo hi -> Books cur q n (tr ++ es) lo hi.
Proof.
  intros Hes B.
  assert (He : pick enqueuedOf es = [] /\ pick writtenOf es = []
               /\ pick settledOf es = []).
  { induction Hes as [| e es (H1 & H2 & H3) _ (I1 & I2 & I3)];
      cbn [pick]; [auto |].
    rewrite H1, H2, H3. auto. }
  destruct He as (E1 & E2 & E3).
  destruct B. constructor; unfold writesOf in *;
    rewrite ?pick_app, ?E1, ?E2, ?E3, ?app_nil_r; auto.
  apply inTurn_app. split; [assumption | now apply inTurn_neutral].
Qed.

Lemma Books_push cur q n tr lo hi (x : QueuedCommand) :
  handle x = n ->
  Books cur q n tr lo hi ->
  Books cur (q ++ [x]) (S n) (tr ++ [Enqueued x]) lo hi.
Proof.
  intros Hx B. destruct B.
  constructor; unfold writesOf in *; rewrite ?pick_app;
    cbn [pick enqueuedOf writtenOf settledOf]; rewrite ?app_nil_r; auto.
  - rewrite b_enq0, <- !app_assoc. reflexivity.
  - unfold handles in *. rewrite map_app, b_handles0, seq_S.
    cbn [map]. now rewrite Hx.
  - apply inTurn_app. split; [assumption | cbn; auto].
Qed.

Lemma Books_shift q n tr lo hi (x : QueuedCommand) :
  Books [] (x :: q) n tr lo hi -> Books [x] q n tr 0 0.
Proof.
  intro B. destruct B. pose proof (b_idle0 eq_refl) as ->.
  constructor; auto; try lia.
  - intros y Hy. apply b_in0 in Hy. rewrite app_nil_r in Hy.
    apply in_or_app; auto.
Qed.

Lemma Books_handle x q n tr lo hi :
  Books [x] q n tr lo hi -> handle x = List.length (pick settledOf tr).
Proof.
  intro B. destruct B. unfold handles in b_handles0.
  rewrite b_enq0 in b_handles0. cbn [app] in b_handles0.
  apply map_seq_middle in b_handles0. lia.
Qed.

Lemma Books_write x q n tr lo hi :
  (hi < 2)%nat ->
  Books [x] q n tr lo hi ->
  Books [x] q n (tr ++ [WriteCall x]) (S lo) (S hi).
Proof.
  intros Hhi B. pose proof (Books_handle _ _ _ _ _ _ B) as Hx.
  destruct B.
  constructor; unfold writesOf in *; rewrite ?pick_app;
    cbn [pick enqueuedOf writtenOf settledOf]; rewrite ?app_nil_r; auto.
  - unfold handles. rewrite map_app. apply Forall_app. split; auto.
    cbn [map]. repeat constructor. lia.
  - unfold handles. rewrite map_app. cbn [map].
    apply StronglySorted_snoc; auto. now rewrite Hx.
  - intro h. unfold handles. rewrite map_app. cbn [map].
    rewrite count_occ_snoc. destruct (Nat.eq_dec (handle x) h) as [<- |].
    + rewrite Hx. unfold handles in *. lia.
    + specialize (b_twice0 h). unfold handles in *. lia.
  - intros y Hy. apply in_app_or in Hy as [Hy | [<- | []]].
    + now apply b_in0.
    + apply in_or_app. right. now left.
  - unfold handles in *. rewrite map_app. cbn [map].
    rewrite count_occ_snoc, Hx.
    destruct (Nat.eq_dec _ _); [lia | contradiction].
  - unfold handles in *. rewrite map_app. cbn [map].
    rewrite count_occ_snoc, Hx.
    destruct (Nat.eq_dec _ _); [lia | contradiction].
  - discriminate.
  - apply inTurn_app. split; [assumption | cbn; auto].
Qed.

Lemma Books_settle x q n tr lo hi (e : Event) :
  settledOf e = Some x -> enqueuedOf e = None -> writtenOf e = None ->
  Books [x] q n tr lo hi -> Books [] q n (tr ++ [e]) 0 0.
Proof.
  intros H1 H2 H3 B. destruct B.
  assert (Hz : count_occ Nat.eq_dec (handles (pick writtenOf tr))
                 (List.length (pick settledOf tr ++ [x])) = 0%nat).
  { eapply count_occ_above; [exact b_le0 |]. rewrite length_app. cbn. lia. }
  constructor; unfold writesOf in *; rewrite ?pick_app;
    cbn [pick]; rewrite ?H1, ?H2, ?H3, ?app_nil_r; auto; try lia.
  - rewrite b_enq0, <- app_assoc. reflexivity.
  - eapply Forall_impl; [| exact b_le0]. cbn. intros h Hh.
    rewrite length_app. cbn. lia.
  - apply inTurn_app. split; [assumption |].
    cbn [inTurn]. split; [| exact I]. destruct e; try exact I. discriminate.
Qed.

Lemma Books_weaken cur q n tr lo hi lo' hi' :
  (lo' <= lo)%nat -> (hi <= hi')%nat -> cur <> [] ->
  Books cur q n tr lo hi -> Books cur q n tr lo' hi'.
Proof.
  intros Hlo Hhi Hc B. destruct B. constructor; auto; try lia.
  intro; contradiction.
Qed.

(** *** The invariant of the manager *)

Definition BooksW (cur : list QueuedCommand) (lo hi : nat) (w : World)
  : Prop :=
  Books cur (queue (mgr w)) (promises w) (trace w) lo hi.

(** The writes an iteration parked at a given [await] has issued for its
    item: at least and at most. *)
Definition budget (a : Await) : nat * nat :=
  match a with
  | AwaitConnect First _ => (0, 0)
  | AwaitWrite First => (1, 1)
  | AwaitDisconnect => (0, 1)
  | AwaitConnect Retry _ => (0, 1)
  | AwaitWrite Retry => (1, 2)
  end%nat.

Definition owns (a : Await) : bool :=
  match a with
  | AwaitConnect _ true => true
  | _ => false
  end.

Definition Inv (w : World) : Prop :=
  match activations w with
  | [] =>
      BooksW [] 0 0 w
      /\ processing (mgr w) = false
      /\ queue (mgr w) = []
      /\ connectPromise (mgr w) = false
  | [act] =>
      BooksW [item act] (fst (budget (parked act)))
        (snd (budget (parked act))) w
      /\ processing (mgr w) = true
      /\ connectPromise (mgr w) = owns (parked act)
      /\ (forall att, parked act <> AwaitConnect att false)
  | _ => False
  end.

(** What a nested call leaves alone. *)
Definition Frame (w w' : World) : Prop :=
  activations w' = activations w
  /\ processing (mgr w') = processing (mgr w)
  /\ connectPromise (mgr w') = connectPromise (mgr w)
  /\ address (mgr w') = address (mgr w)
  /\ onReconnectCallback (mgr w') = onReconnectCallback (mgr w).

Lemma Frame_refl w : Frame w w.
Proof. repeat split. Qed.

Lemma Frame_trans w1 w2 w3 : Frame w1 w2 -> Frame w2 w3 -> Frame w1 w3.
Proof.
  intros (A1 & A2 & A3 & A4 & A5) (B1 & B2 & B3 & B4 & B5).
  repeat split; congruence.
Qed.

Ltac proj :=
  cbn [mgr client activations promises trace queue processing idleTimer
       connected connectPromise resolvedAddress address onReconnectCallback
       withMgr withClient withActivations log park set_queue set_processing
       set_idleTimer set_connected set_connectPromise set_resolvedAddress
       resetIdleTimer clearIdleTimer item parked fst snd budget owns
       replaceAt removeAt BleConnectionManager.disconnect] in *.

(** While the loop runs, [enqueue] only appends to the queue. *)
Lemma enqueue_busy (c : BleCommand) (w : World) :
  processing (mgr w) = true ->
  enqueue c w
  = mkWorld (set_queue (queue (mgr w) ++ [mkQueued c (promises w)]) (mgr w))
      (client w) (activations w) (S (promises w))
      (trace w ++ [Enqueued (mkQueued c (promises w))]).
Proof.
  intro H. unfold enqueue, processQueue. proj. now rewrite H.
Qed.

Lemma enqueue_busy_books c w cur lo hi :
  processing (mgr w) = true ->
  BooksW cur lo hi w ->
  BooksW cur lo hi (enqueue c w) /\ Frame w (enqueue c w).
Proof.
  intros Hp B. rewrite (enqueue_busy c w Hp). split.
  - unfold BooksW in *. proj. now apply Books_push.
  - repeat split.
Qed.

Lemma enqueue_all_busy_books (cmds : list BleCommand) :
  forall w cur lo hi,
    processing (mgr w) = true ->
    BooksW cur lo hi w ->
    BooksW cur lo hi (fold_left (fun w' c => enqueue c w') cmds w)
    /\ Frame w (fold_left (fun w' c => enqueue c w') cmds w).
Proof.
  induction cmds as [| c cmds IH]; intros w cur lo hi Hp B; cbn [fold_left].
  - split; [assumption | apply Frame_refl].
  - destruct (enqueue_busy_books c w cur lo hi Hp B) as [B1 F1].
    assert (Hp1 : processing (mgr (enqueue c w)) = true)
      by (destruct F1 as (_ & -> & _); assumption).
    destruct (IH _ _ _ _ Hp1 B1) as [B2 F2].
    split; [assumption | eapply Frame_trans; eassumption].
Qed.

Lemma neutral_Scanned k : neutral (Scanned k).
Proof. repeat split. Qed.

Lemma neutral_ConnectCall t : neutral (ConnectCall t).
Proof. repeat split. Qed.

Lemma neutral_DisconnectCall : neutral DisconnectCall.
Proof. repeat split. Qed.

Lemma neutral_ReconnectCallback : neutral ReconnectCallback.
Proof. repeat split. Qed.

Lemma neutral_scans (ks : list ScanKind) : Forall neutral (map Scanned ks).
Proof.
  induction ks; cbn [map]; constructor; auto using neutral_Scanned.
Qed.

Create HintDb books.

#[local] Hint Resolve neutral_Scanned neutral_ConnectCall
  neutral_DisconnectCall neutral_ReconnectCallback neutral_scans : books.

(** [doConnect] keeps the books, whatever the radio answers. *)
Lemma doConnect_books (a : Answers) w cur lo hi :
  processing (mgr w) = true ->
  BooksW cur lo hi w ->
  BooksW cur lo hi (fst (doConnect a w)) /\ Frame w (fst (doConnect a w)).
Proof.
  intros Hp B. unfold doConnect.
  destruct (connect (orUndefined (address (mgr w))) a (client w))
    as [[c1 ks] r] eqn:Hc.
  assert (B1 : BooksW cur lo hi (log (map Scanned ks) (withClient c1 w))).
  { unfold BooksW in *. proj. apply Books_neutral; auto with books. }
  destruct r; [| split; [exact B1 | repeat split]].
  destruct (subscribeNotifications a c1) as [c2 r2] eqn:Hs.
  destruct (negb (truthy (address (mgr w))) && truthy (_resolvedAddress c1));
    (destruct r2; [| split; [exact B1 | repeat split]]);
    (destruct (onReconnectCallback (mgr w)) as [cmds |];
     [| split; [exact B1 | repeat split]]);
    cbn [fst];
    match goal with
    | |- context [fold_left _ cmds ?w0] =>
        assert (B0 : BooksW cur lo hi w0)
          by (unfold BooksW in *; proj;
              apply Books_neutral; [auto with books | exact B1]);
        assert (Hp0 : processing (mgr w0) = true) by (proj; exact Hp);
        destruct (enqueue_all_busy_books cmds w0 cur lo hi Hp0 B0)
          as [B2 F2]
    end;
    (split; [exact B2 |]);
    (eapply Frame_trans; [| exact F2]); repeat split.
Qed.

(** One [try] block, up to its first pending [await]. *)
Lemma attempt_books (att : Attempt) (it : QueuedCommand) w lo hi :
  (hi < 2)%nat ->
  BooksW [it] lo hi w ->
  connectPromise (mgr w) = false ->
  let w' := fst (attempt att it w) in
  let act := snd (attempt att it w) in
  item act = it
  /\ activations w' = activations w
  /\ processing (mgr w') = processing (mgr w)
  /\ connectPromise (mgr w') = owns (parked act)
  /\ ((parked act = AwaitWrite att /\ BooksW [it] (S lo) (S hi) w')
      \/ (parked act = AwaitConnect att true /\ BooksW [it] lo hi w')).
Proof.
  intros Hhi B Hcp. unfold attempt, ensureConnected. rewrite Hcp.
  destruct (connected (mgr w) && isConnected (client w)); cbn zeta; proj.
  - repeat split; auto. left. split; [reflexivity |].
    unfold BooksW in *. proj. now apply Books_write.
  - repeat split; auto. right. split; [reflexivity |].
    unfold BooksW in *. proj. apply Books_neutral; auto with books.
Qed.

(** After an item settles, the loop goes on or ends, and the invariant
    holds again. *)
Lemma next_inv (act0 : Activation) (w : World) :
  activations w = [act0] ->
  processing (mgr w) = true ->
  connectPromise (mgr w) = false ->
  BooksW [] 0 0 w ->
  Inv (next 0 w).
Proof.
  intros Ha Hp Hcp B. unfold next, iterate.
  destruct (queue (mgr w)) as [| it rest] eqn:Hq.
  - unfold Inv. proj. rewrite Ha. proj.
    refine (conj _ (conj eq_refl (conj Hq Hcp))).
    unfold BooksW in *. proj. exact B.
  - set (w0 := withMgr (set_queue rest) w).
    assert (B0 : BooksW [it] 0 0 w0).
    { unfold BooksW in *. subst w0. proj. rewrite Hq in B.
      eapply Books_shift; exact B. }
    assert (Hcp0 : connectPromise (mgr w0) = false) by (subst w0; proj; auto).
    pose proof (attempt_books First it w0 0 0 ltac:(lia) B0 Hcp0)
      as (Hi & Hact & Hproc & Hown & Hcase).
    destruct (attempt First it w0) as [w1 act] eqn:Hatt.
    cbn [fst snd] in *. unfold Inv. proj. rewrite Hact. subst w0. proj.
    rewrite Ha. proj. rewrite Hi.
    destruct Hcase as [[Hpk Hb] | [Hpk Hb]]; rewrite Hpk in *; proj;
      (refine (conj Hb (conj _ (conj Hown _)));
       [congruence | discriminate]).
Qed.

(** An [await] of the [try] block threw. *)
Lemma fail_inv (att : Attempt) (it : QueuedCommand) (act0 : Activation)
    (w : World) (lo hi : nat) :
  activations w = [act0] ->
  processing (mgr w) = true ->
  connectPromise (mgr w) = false ->
  BooksW [it] lo hi w ->
  (att = First -> (hi <= 1)%nat) ->
  Inv (fail att 0 it w).
Proof.
  intros Ha Hp Hcp B Hhi. destruct att; unfold fail.
  - unfold Inv. proj. rewrite Ha. proj.
    refine (conj _ (conj Hp (conj Hcp _))); [| discriminate].
    unfold BooksW in *. proj.
    apply Books_neutral; [auto with books |].
    eapply Books_weaken; [| | discriminate | exact B]; auto with arith.
  - apply next_inv with (act0 := act0); proj; auto.
    unfold BooksW in *. proj.
    eapply Books_settle; [reflexivity | reflexivity | reflexivity | exact B].
Qed.

Lemma resume_inv (i : nat) (a : Answers) (w : World) :
  Inv w -> Inv (resume i a w).
Proof.
  intro H. pose proof H as H0. unfold Inv in H. unfold resume.
  destruct (activations w) as [| act [| act' l]] eqn:Ha; [| | contradiction].
  - destruct i; exact H0.
  - destruct i as [| i]; [| destruct i; exact H0].
    cbn [nth_error]. destruct H as (B & Hp & Hcp & Hno).
    destruct act as [it pk]. proj.
    destruct pk as [att own | att |].
    + (* the connection attempt ends *)
      destruct own; [| exfalso; exact (Hno att eq_refl)].
      destruct (doConnect_books a w [it] _ _ Hp B) as [B1 F1].
      destruct F1 as (Fa & Fp & Fcp & _).
      destruct (doConnect a w) as [w' r]. cbn [fst] in *.
      rewrite Ha in Fa. rewrite Hp in Fp.
      destruct r.
      * unfold Inv. proj. rewrite Fa. proj.
        refine (conj _ (conj Fp (conj _ _)));
          [| destruct att; reflexivity | destruct att; discriminate].
        unfold BooksW in *. proj.
        destruct att; proj; apply Books_write; auto.
      * eapply fail_inv with (lo := fst (budget (AwaitConnect att true)))
                             (hi := snd (budget (AwaitConnect att true)));
          proj; eauto.
        intros ->. proj. lia.
    + (* the write ends *)
      destruct (write (characteristicUuid (command it)) a (client w)).
      * apply next_inv with (act0 := mkActivation it (AwaitWrite att));
          proj; auto.
        unfold BooksW in *. proj.
        eapply Books_settle;
          [reflexivity | reflexivity | reflexivity | exact B].
      * eapply fail_inv with (lo := fst (budget (AwaitWrite att)))
                             (hi := snd (budget (AwaitWrite att)));
          proj; eauto.
        intros ->. proj. lia.
    + (* the disconnect ends: the retry starts *)
      set (w1 := withClient (BleClient.disconnect (client w)) w).
      assert (B1 : BooksW [it] 0 1 w1) by exact B.
      assert (Hcp1 : connectPromise (mgr w1) = false) by exact Hcp.
      pose proof (attempt_books Retry it w1 0 1 ltac:(lia) B1 Hcp1)
        as (Hi & Hact & Hproc & Hown & Hcase).
      destruct (attempt Retry it w1) as [w2 act2]. cbn [fst snd] in *.
      unfold Inv. proj. rewrite Hact. subst w1. proj. rewrite Ha. proj.
      rewrite Hi.
      destruct Hcase as [[Hpk Hb] | [Hpk Hb]]; rewrite Hpk in *; proj;
        (refine (conj Hb (conj _ (conj Hown _)));
         [congruence | discriminate]).
Qed.

Lemma enqueue_inv (c : BleCommand) (w : World) :
  Inv w -> Inv (enqueue c w).
Proof.
  intro H. unfold Inv in H.
  destruct (activations w) as [| act [| act' l]] eqn:Ha; [| | contradiction].
  - destruct H as (B & Hp & Hq & Hcp).
    unfold enqueue, processQueue, iterate. proj. rewrite Hp, Hq.
    cbn [app].
    set (q := mkQueued c (promises w)).
    set (w0 := withMgr (set_queue []) _).
    assert (B0 : BooksW [q] 0 0 w0).
    { unfold BooksW in *. subst w0. proj.
      apply Books_shift with (lo := 0%nat) (hi := 0%nat).
      rewrite Hq in B.
      apply (Books_push [] [] _ _ _ _ q eq_refl B). }
    assert (Hcp0 : connectPromise (mgr w0) = false) by exact Hcp.
    pose proof (attempt_books First q w0 0 0 ltac:(lia) B0 Hcp0)
      as (Hi & Hact & Hproc & Hown & Hcase).
    destruct (attempt First q w0) as [w1 act1]. cbn [fst snd] in *.
    unfold Inv. proj. rewrite Hact. subst w0. proj. rewrite Ha.
    cbn [app]. rewrite Hi.
    destruct Hcase as [[Hpk Hb] | [Hpk Hb]]; rewrite Hpk in *; proj;
      (refine (conj Hb (conj _ (conj Hown _)));
       [congruence | discriminate]).
  - destruct H as (B & Hp & Hcp & Hno).
    destruct (enqueue_busy_books c w _ _ _ Hp B) as [B1 F1].
    destruct F1 as (Fa & Fp & Fcp & _).
    unfold Inv. rewrite Fa, Ha.
    refine (conj B1 (conj _ (conj _ Hno))); congruence.
Qed.

Lemma step_inv (inp : Input) (w : World) : Inv w -> Inv (step inp w).
Proof.
  intro H. destruct inp as [c | i a | | |]; cbn [step].
  - now apply enqueue_inv.
  - now apply resume_inv.
  - destruct (idleTimer (mgr w)); [| exact H].
    unfold Inv in *. proj.
    destruct (activations w) as [| act [| act' l]]; [| | contradiction].
    + destruct H as (B & Hrest). split; [| exact Hrest].
      unfold BooksW in *. proj. apply Books_neutral; auto with books.
    + destruct H as (B & Hrest). split; [| exact Hrest].
      unfold BooksW in *. proj. apply Books_neutral; auto with books.
  - exact H.
  - destruct (isConnected (client w) && notificationHandler (client w));
      exact H.
Qed.

Lemma new_inv (address : string) (callback : option (list BleCommand)) :
  Inv (BleConnectionManager.new address callback).
Proof.
  unfold Inv. cbn [activations BleConnectionManager.new].
  refine (conj _ (conj eq_refl (conj eq_refl eq_refl))).
  constructor; cbn; auto; try constructor.
  intros x [].
Qed.

Lemma run_inv (inps : list Input) :
  forall w, Inv w -> Inv (run inps w).
Proof.
  induction inps as [| inp inps IH]; intros w H; cbn [run fold_left];
    [exact H |].
  apply IH. now apply step_inv.
Qed.

(** *** The trace only grows, and every connection targets the
    configured address *)

(** The scan [client.connect(address || undefined)] starts. *)
Definition scanKindOf (address : string) : ScanKind :=
  if truthy address then ScanForDevice address else ScanForAnyDevice.

Definition asConfigured (address : string) (e : Event) : Prop :=
  match e with
  | ConnectCall t => t = orUndefined address
  | Scanned k => k = scanKindOf address
  | _ => True
  end.

Definition Extends (w w' : World) : Prop :=
  address (mgr w') = address (mgr w)
  /\ exists es, trace w' = trace w ++ es
                /\ Forall (asConfigured (address (mgr w))) es.

Lemma Extends_refl w : Extends w w.
Proof.
  split; [reflexivity |]. exists []. now rewrite app_nil_r.
Qed.

Lemma Extends_trans w1 w2 w3 :
  Extends w1 w2 -> Extends w2 w3 -> Extends w1 w3.
Proof.
  intros (A1 & es1 & T1 & F1) (A2 & es2 & T2 & F2).
  split; [congruence |]. exists (es1 ++ es2). split.
  - rewrite T2, T1, app_assoc. reflexivity.
  - apply Forall_app. split; [assumption |]. now rewrite <- A1.
Qed.

Lemma Extends_by (es : list Event) (w w' : World) :
  address (mgr w') = address (mgr w) ->
  trace w' = trace w ++ es ->
  Forall (asConfigured (address (mgr w))) es ->
  Extends w w'.
Proof. intros; split; [assumption | exists es; auto]. Qed.

Lemma Extends_same (w w' : World) :
  address (mgr w') = address (mgr w) -> trace w' = trace w -> Extends w w'.
Proof.
  intros Ha Ht. apply (Extends_by [] w w'); auto.
  now rewrite app_nil_r.
Qed.

Lemma ensureConnected_extends w : Extends w (fst (ensureConnected w)).
Proof.
  unfold ensureConnected.
  destruct (connected (mgr w) && isConnected (client w)); cbn [fst].
  - now apply Extends_same.
  - destruct (connectPromise (mgr w)); cbn [fst]; [apply Extends_refl |].
    apply (Extends_by [ConnectCall (orUndefined (address (mgr w)))]);
      [reflexivity | reflexivity | repeat constructor].
Qed.

Lemma attempt_extends att it w : Extends w (fst (attempt att it w)).
Proof.
  unfold attempt. pose proof (ensureConnected_extends w) as H.
  destruct (ensureConnected w) as [w1 e]. cbn [fst] in H.
  destruct e; cbn [fst]; [| exact H].
  eapply Extends_trans; [exact H |].
  apply (Extends_by [WriteCall it]);
    [reflexivity | reflexivity | repeat constructor].
Qed.

Lemma iterate_extends w : Extends w (fst (iterate w)).
Proof.
  unfold iterate. destruct (queue (mgr w)) as [| it rest].
  - now apply Extends_same.
  - set (w0 := withMgr (set_queue rest) w).
    pose proof (attempt_extends First it w0) as H.
    destruct (attempt First it w0) as [w1 act]. cbn [fst] in *.
    eapply Extends_trans; [| exact H]. now apply Extends_same.
Qed.

Lemma processQueue_extends w : Extends w (processQueue w).
Proof.
  unfold processQueue.
  destruct (processing (mgr w)); [apply Extends_refl |].
  set (w0 := withMgr (set_processing true) w).
  pose proof (iterate_extends w0) as H.
  destruct (iterate w0) as [w1 [a |]]; cbn [fst] in H.
  - eapply Extends_trans; [now apply (Extends_same w w0) |].
    eapply Extends_trans; [exact H |]. now apply Extends_same.
  - eapply Extends_trans; [now apply (Extends_same w w0) | exact H].
Qed.

Lemma enqueue_extends c w : Extends w (enqueue c w).
Proof.
  unfold enqueue.
  eapply Extends_trans; [| apply processQueue_extends].
  apply (Extends_by [Enqueued (mkQueued c (promises w))]);
    [reflexivity | reflexivity | repeat constructor].
Qed.

Lemma enqueue_all_extends (cmds : list BleCommand) :
  forall w, Extends w (fold_left (fun w' c => enqueue c w') cmds w).
Proof.
  induction cmds as [| c cmds IH]; intro w; cbn [fold_left].
  - apply Extends_refl.
  - eapply Extends_trans; [apply enqueue_extends | apply IH].
Qed.

Lemma connect_scans (address : string) (a : Answers) (c : BleClient) :
  Forall (asConfigured address)
    (map Scanned (snd (fst (connect (orUndefined address) a c)))).
Proof.
  unfold connect, orUndefined, scanKindOf.
  destruct (_connected c); [constructor |].
  assert (H : asConfigured address
                (Scanned match (if truthy address then Some address else None) with
                         | Some s => if truthy s then ScanForDevice s
                                     else ScanForAnyDevice
                         | None => ScanForAnyDevice
                         end)).
  { unfold asConfigured, scanKindOf.
    destruct (truthy address) eqn:Ht; [now rewrite Ht | reflexivity]. }
  destruct (scan a); [| repeat constructor; exact H ..].
  destruct (link_ok a); [| repeat constructor; exact H].
  destruct (discovered a); repeat constructor; exact H.
Qed.

Lemma doConnect_extends a w : Extends w (fst (doConnect a w)).
Proof.
  unfold doConnect.
  pose proof (connect_scans (address (mgr w)) a (client w)) as Hs.
  destruct (connect (orUndefined (address (mgr w))) a (client w))
    as [[c1 ks] r]. cbn [fst snd] in Hs.
  assert (E1 : Extends w (log (map Scanned ks) (withClient c1 w)))
    by (apply (Extends_by (map Scanned ks)); auto).
  destruct r; cbn [fst];
    [| eapply Extends_trans; [exact E1 | now apply Extends_same]].
  assert (E2 : forall s0, Extends w
                 (withMgr (set_resolvedAddress s0)
                    (log (map Scanned ks) (withClient c1 w))))
    by (intro s0; eapply Extends_trans;
        [exact E1 | now apply Extends_same]).
  destruct (subscribeNotifications a c1) as [c2 r2].
  pose proof (E2 (_resolvedAddress c1)) as E3.
  destruct (negb (truthy (address (mgr w))) && truthy (_resolvedAddress c1));
    [set (E := E3) | set (E := E1)];
    (destruct r2; cbn [fst];
     [| eapply Extends_trans; [exact E | now apply Extends_same]]);
    (destruct (onReconnectCallback (mgr w)) as [cmds |]; cbn [fst];
     [| eapply Extends_trans; [exact E | now apply Extends_same]]);
    (eapply Extends_trans; [exact E |]);
    (eapply Extends_trans; [| apply enqueue_all_extends]);
    apply (Extends_by [ReconnectCallback]);
      [reflexivity | reflexivity | repeat constructor
      | reflexivity | reflexivity | repeat constructor].
Qed.

Lemma next_extends i w : Extends w (next i w).
Proof.
  unfold next. pose proof (iterate_extends w) as H.
  destruct (iterate w) as [w1 [a |]]; cbn [fst] in H;
    (eapply Extends_trans; [exact H | now apply Extends_same]).
Qed.

Lemma fail_extends att i it w : Extends w (fail att i it w).
Proof.
  destruct att; unfold fail.
  - apply (Extends_by [DisconnectCall]);
      [reflexivity | reflexivity | repeat constructor].
  - eapply Extends_trans; [| apply next_extends].
    apply (Extends_by [Rejected it]);
      [reflexivity | reflexivity | repeat constructor].
Qed.

Lemma resume_extends i a w : Extends w (resume i a w).
Proof.
  unfold resume.
  destruct (nth_error (activations w) i) as [[it pk] |];
    [| apply Extends_refl].
  cbn [item parked]. destruct pk as [att own | att |].
  - assert (E : Extends w
                  (fst (if own
                        then let (w', r) := doConnect a w in
                             (withMgr (set_connectPromise false) w', r)
                        else (w, if io_ok a then Normal else Throw)))).
    { destruct own; [| apply Extends_refl].
      pose proof (doConnect_extends a w) as H.
      destruct (doConnect a w) as [w' r]. cbn [fst] in *.
      eapply Extends_trans; [exact H | now apply Extends_same]. }
    destruct (if own then _ else _) as [w1 r]. cbn [fst] in E.
    eapply Extends_trans; [exact E |].
    destruct r; [| apply fail_extends].
    apply (Extends_by [WriteCall it]);
      [reflexivity | reflexivity | repeat constructor].
  - destruct (write _ a (client w)); [| apply fail_extends].
    eapply Extends_trans; [| apply next_extends].
    apply (Extends_by [Resolved it]);
      [reflexivity | reflexivity | repeat constructor].
  - set (w1 := withClient _ w).
    pose proof (attempt_extends Retry it w1) as H.
    destruct (attempt Retry it w1) as [w2 act']. cbn [fst] in H.
    eapply Extends_trans; [now apply (Extends_same w w1) |].
    eapply Extends_trans; [exact H | now apply Extends_same].
Qed.

Lemma step_extends inp w : Extends w (step inp w).
Proof.
  destruct inp as [c | i a | | |]; cbn [step].
  - apply enqueue_extends.
  - apply resume_extends.
  - destruct (idleTimer (mgr w)); [| apply Extends_refl].
    apply (Extends_by [DisconnectCall]);
      [reflexivity | reflexivity | repeat constructor].
  - now apply Extends_same.
  - destruct (_ && _); [now apply Extends_same | apply Extends_refl].
Qed.

Lemma run_extends (inps : list Input) : forall w, Extends w (run inps w).
Proof.
  induction inps as [| inp inps IH]; intro w; cbn [run fold_left].
  - apply Extends_refl.
  - eapply Extends_trans; [apply step_extends | apply IH].
Qed.

(** *** What the invariant gives *)

Lemma Inv_books (w : World) :
  Inv w ->
  exists lo hi,
    BooksW (map item (activations w)) lo hi w
    /\ (List.length (activations w) <= 1)%nat.
Proof.
  unfold Inv. destruct (activations w) as [| act [| act' l]];
    [| | contradiction].
  - intros (B & _). exists 0%nat, 0%nat. split; [exact B | cbn; lia].
  - intros (B & _). eexists _, _. split; [exact B | cbn; lia].
Qed.

Lemma reachable_inv (address : string) (callback : option (list BleCommand))
    (inps : list Input) :
  Inv (run inps (BleConnectionManager.new address callback)).
Proof. apply run_inv, new_inv. Qed.

Lemma pick_asConfigured (address : string) (es : list Event) :
  Forall (asConfigured address) es ->
  Forall (eq (orUndefined address)) (pick targetOf es)
  /\ Forall (eq (scanKindOf address)) (pick scanOf es).
Proof.
  induction 1 as [| e es He _ [IH1 IH2]]; cbn [pick]; [split; constructor |].
  destruct e; cbn [targetOf scanOf]; cbn in He; subst; split; auto.
Qed.

(** Every call of [client.connect] is given [this.address || undefined],
    the address of the configuration: the resolved address is never the
    target. *)
Lemma targets_as_configured (address : string)
    (callback : option (list BleCommand)) (inps : list Input) :
  let w := run inps (BleConnectionManager.new address callback) in
  Forall (eq (orUndefined address)) (targets w)
  /\ Forall (eq (scanKindOf address)) (scans w).
Proof.
  cbn zeta.
  destruct (run_extends inps (BleConnectionManager.new address callback))
    as (_ & es & Ht & Hes).
  unfold targets, scans. rewrite Ht. cbn [trace BleConnectionManager.new app].
  now apply pick_asConfigured.
Qed.

(** A peripheral and the answers of a radio that finds it and lets every
    operation succeed, or lets the awaited write fail. *)
Definition sofa : Peripheral :=
  mkPeripheral "aa:bb:cc:dd:ee:ff" (Some "5f3c"%string) None.

Definition radioOk : Answers :=
  mkAnswers (Found sofa) true
    (Some [Settings.CharUUID.UpStream; Settings.CharUUID.DeviceInfo;
           Settings.CharUUID.EqControl; Settings.CharUUID.AudioPath])
    true true.

Definition radioWriteFails : Answers :=
  mkAnswers (Found sofa) true
    (Some [Settings.CharUUID.UpStream; Settings.CharUUID.DeviceInfo;
           Settings.CharUUID.EqControl; Settings.CharUUID.AudioPath])
    true false.

(** C2.  The specification says that without a configured address the address
    resolved by the first connection becomes the target of every
    reconnect, so that auto-discovery runs at most once.  The manager
    stores the resolved address but passes [this.address || undefined] to
    [client.connect]: with no address configured, a first command
    connects by auto-discovery and resolves [aa:bb:cc:dd:ee:ff]; after
    the idle timeout, the next command connects with no target again and
    the client scans for any device a second time. *)
Theorem reconnect_without_address_scans_again :
  let first :=
    run [Enqueue (setVolume 10); Resume 0 radioOk; Resume 0 radioOk]
      (BleConnectionManager.new "" None) in
  let again :=
    run [IdleTimeout; Enqueue (setVolume 11); Resume 0 radioOk;
         Resume 0 radioOk] first in
  getResolvedAddress first = "aa:bb:cc:dd:ee:ff"%string
  /\ List.length (settled first) = 1%nat
  /\ targets again = [None; None]
  /\ scans again = [ScanForAnyDevice; ScanForAnyDevice]
  /\ List.length (settled again) = 2%nat.
Proof. vm_compute. repeat split. Qed.

(** *** Settled commands are not written again *)

Lemma Inv_inTurn (w : World) : Inv w -> inTurn 0 (trace w).
Proof.
  intro H. destruct (Inv_books w H) as (lo & hi & B & _). now destruct B.
Qed.

Lemma Extends_settled (w w' : World) :
  Extends w w' -> exists more, settled w' = settled w ++ more.
Proof.
  intros (_ & es & Ht & _). exists (pick settledOf es).
  unfold settled. now rewrite Ht, pick_app.
Qed.

Lemma writesOf_frozen (w w' : World) (h : nat) :
  Extends w w' -> inTurn 0 (trace w') ->
  (h < List.length (settled w))%nat ->
  writesOf h (trace w') = writesOf h (trace w).
Proof.
  intros (_ & es & Ht & _) Hturn Hh. rewrite Ht in *.
  apply inTurn_app in Hturn as [_ Hes]. apply inTurn_ge in Hes.
  unfold writesOf, handles. rewrite pick_app, map_app, count_occ_app.
  assert (Hz : count_occ Nat.eq_dec (map handle (pick writtenOf es)) h
               = 0%nat).
  { apply count_occ_not_In. intro Hin.
    rewrite Forall_forall in Hes. apply Hes in Hin.
    unfold settled in Hh. cbn in Hin. lia. }
  rewrite Hz. lia.
Qed.

Lemma settled_same (w w' : World) (it : QueuedCommand) (lo hi lo' hi' : nat) :
  Extends w w' -> BooksW [it] lo hi w -> BooksW [it] lo' hi' w' ->
  settled w' = settled w.
Proof.
  intros E B B'. apply Books_handle in B, B'.
  destruct (Extends_settled _ _ E) as [more Hm].
  unfold settled in *. rewrite Hm in B'. rewrite length_app in B'.
  assert (Hz : List.length more = 0%nat) by lia.
  apply length_zero_iff_nil in Hz. subst more. now rewrite app_nil_r in Hm.
Qed.

Lemma attempt_settled att it w :
  settled (fst (attempt att it w)) = settled w.
Proof.
  unfold attempt, ensureConnected, settled.
  destruct (connected (mgr w) && isConnected (client w)); cbn;
    [now rewrite pick_app, app_nil_r |].
  destruct (connectPromise (mgr w)); cbn; [reflexivity |].
  now rewrite pick_app, app_nil_r.
Qed.

Lemma next_settled i w : settled (next i w) = settled w.
Proof.
  unfold next, iterate. destruct (queue (mgr w)) as [| it rest];
    [reflexivity |].
  pose proof (attempt_settled First it (withMgr (set_queue rest) w)) as H.
  destruct (attempt First it (withMgr (set_queue rest) w)) as [w1 act].
  exact H.
Qed.

(** The loop serves the oldest command not yet settled, and does not
    stop while a command is queued. *)
Definition servesNext (w : World) : Prop :=
  enqueued w = settled w ++ map item (activations w) ++ queue (mgr w)
  /\ (List.length (activations w) <= 1)%nat
  /\ (activations w = [] ->
      queue (mgr w) = [] /\ processing (mgr w) = false).

Lemma Inv_servesNext (w : World) : Inv w -> servesNext w.
Proof.
  intro H. destruct (Inv_books w H) as (lo & hi & B & Hlen).
  destruct B. unfold servesNext.
  refine (conj b_enq0 (conj Hlen _)).
  intro Ha. unfold Inv in H. rewrite Ha in H. tauto.
Qed.

(** An item rejected after [k] writes: the loop goes on, and the item is
    never written again. *)
Lemma reject_then_next (it : QueuedCommand) (act0 : Activation)
    (w : World) (k : nat) :
  activations w = [act0] ->
  processing (mgr w) = true ->
  connectPromise (mgr w) = false ->
  BooksW [it] k k w ->
  let w' := next 0 (log [Rejected it] w) in
  Inv w'
  /\ settled w' = settled w ++ [it]
  /\ In (Rejected it) (trace w')
  /\ forall more, writesOf (handle it) (trace (run more w')) = k.
Proof.
  intros Ha Hp Hcp B. cbn zeta.
  set (wr := log [Rejected it] w).
  assert (Br : BooksW [] 0 0 wr).
  { unfold BooksW in *. subst wr. proj.
    eapply Books_settle; [reflexivity | reflexivity | reflexivity | exact B]. }
  assert (HI : Inv (next 0 wr))
    by (apply next_inv with (act0 := act0); subst wr; proj; auto).
  assert (Hs : settled wr = settled w ++ [it])
    by (unfold settled; subst wr; proj; now rewrite pick_app).
  assert (Hk : writesOf (handle it) (trace wr) = k).
  { pose proof (Books_handle _ _ _ _ _ _ B) as Hh. destruct B.
    unfold writesOf in *. subst wr. proj.
    rewrite pick_app. cbn [pick writtenOf]. rewrite app_nil_r, Hh. lia. }
  refine (conj HI (conj _ (conj _ _))).
  - now rewrite next_settled.
  - destruct (next_extends 0 wr) as (_ & es & Ht & _). rewrite Ht.
    apply in_or_app. left. subst wr. proj. apply in_or_app. right. now left.
  - intro more. rewrite <- Hk. apply writesOf_frozen.
    + eapply Extends_trans; [apply next_extends | apply run_extends].
    + apply Inv_inTurn. now apply run_inv.
    + rewrite Hs, length_app.
      rewrite (Books_handle _ _ _ _ _ _ B). cbn. unfold settled. lia.
Qed.

(** While the loop runs, [doConnect] adds no connect call, no write and no
    settlement to the trace. *)
Definition silent (e : Event) : Prop :=
  targetOf e = None /\ writtenOf e = None /\ settledOf e = None.

Lemma pick_silent (es : list Event) :
  Forall silent es ->
  pick targetOf es = [] /\ pick writtenOf es = [] /\ pick settledOf es = [].
Proof.
  induction 1 as [| e es (H1 & H2 & H3) _ (I1 & I2 & I3)]; cbn [pick];
    [auto |].
  rewrite H1, H2, H3. auto.
Qed.

Lemma enqueue_all_busy_trace (cmds : list BleCommand) :
  forall w,
    processing (mgr w) = true ->
    exists es,
      trace (fold_left (fun w' c => enqueue c w') cmds w) = trace w ++ es
      /\ Forall silent es.
Proof.
  induction cmds as [| c cmds IH]; intros w Hp; cbn [fold_left].
  - exists []. split; [now rewrite app_nil_r | constructor].
  - assert (Hp1 : processing (mgr (enqueue c w)) = true)
      by (rewrite (enqueue_busy c w Hp); exact Hp).
    destruct (IH _ Hp1) as (es & Ht & Hes).
    exists (Enqueued (mkQueued c (promises w)) :: es). split.
    + rewrite Ht, (enqueue_busy c w Hp). cbn [trace].
      now rewrite <- app_assoc.
    + constructor; [repeat split | exact Hes].
Qed.

Lemma doConnect_busy_trace (a : Answers) (w : World) :
  processing (mgr w) = true ->
  exists es,
    trace (fst (doConnect a w)) = trace w ++ es /\ Forall silent es.
Proof.
  intro Hp. unfold doConnect.
  destruct (connect (orUndefined (address (mgr w))) a (client w))
    as [[c1 ks] r].
  assert (Hks : Forall silent (map Scanned ks))
    by (induction ks; cbn [map]; constructor; auto; repeat split).
  destruct r; [| exists (map Scanned ks); split; [reflexivity | exact Hks]].
  destruct (subscribeNotifications a c1) as [c2 r2].
  destruct (negb (truthy (address (mgr w))) && truthy (_resolvedAddress c1));
    (destruct r2;
     [| exists (map Scanned ks); split; [reflexivity | exact Hks]]);
    (destruct (onReconnectCallback (mgr w)) as [cmds |];
     [| exists (map Scanned ks); split; [reflexivity | exact Hks]]);
    cbn [fst];
    match goal with
    | |- context [fold_left _ cmds ?w0] =>
        destruct (enqueue_all_busy_trace cmds w0 Hp) as (es & Ht & Hes);
        exists (map Scanned ks ++ ReconnectCallback :: es); split;
        [ rewrite Ht; cbn [trace log withMgr withClient];
          now rewrite <- !app_assoc
        | apply Forall_app; split;
          [exact Hks | constructor; [repeat split | exact Hes]] ]
    end.
Qed.

(** C3.  Take any run that leaves the first write of a dequeued command
    [it] awaiting the radio, and let that write fail.  The supervisor
    marks itself disconnected and calls [client.disconnect], then calls
    [client.connect] once.  If that reconnect fails, [it] is rejected
    without a second write.  If it succeeds, exactly one connect call and
    one more write, of [it], have been added; if this write fails too,
    [it] is rejected.  Either way [it] is not written again in any
    continuation of the run, and the loop serves the next queued command
    (or ends, the queue being empty). *)
Theorem failed_write_retried_once (address : string)
    (callback : option (list BleCommand)) (inps : list Input)
    (it : QueuedCommand) (a1 a2 a3 a4 : Answers) :
  let w := run inps (BleConnectionManager.new address callback) in
  let w1 := resume 0 a1 w in
  let w2 := resume 0 a2 w1 in
  let w3 := resume 0 a3 w2 in
  let w4 := resume 0 a4 w3 in
  activations w = [mkActivation it (AwaitWrite First)] ->
  write (characteristicUuid (command it)) a1 (client w) = Throw ->
  trace w1 = trace w ++ [DisconnectCall]
  /\ connected (mgr w1) = false
  /\ trace w2 = trace w1 ++ [ConnectCall (orUndefined address)]
  /\ activations w2 = [mkActivation it (AwaitConnect Retry true)]
  /\ (snd (doConnect a3 w2) = Throw ->
      settled w3 = settled w ++ [it]
      /\ In (Rejected it) (trace w3)
      /\ servesNext w3
      /\ forall more, writesOf (handle it) (trace (run more w3)) = 1%nat)
  /\ (snd (doConnect a3 w2) = Normal ->
      targets w3 = targets w ++ [orUndefined address]
      /\ written w3 = written w ++ [it]
      /\ writesOf (handle it) (trace w3) = 2%nat
      /\ settled w3 = settled w
      /\ (write (characteristicUuid (command it)) a4 (client w3) = Throw ->
          settled w4 = settled w ++ [it]
          /\ In (Rejected it) (trace w4)
          /\ servesNext w4
          /\ forall more,
              writesOf (handle it) (trace (run more w4)) = 2%nat)).
Proof.
  intros w w1 w2 w3 w4 Hact Hw.
  assert (HI : Inv w) by apply reachable_inv.
  assert (Haddr : BleConnectionManager.address (mgr w) = address)
    by (destruct (run_extends inps
                    (BleConnectionManager.new address callback))
          as (Ha & _); exact Ha).
  unfold Inv in HI. rewrite Hact in HI. proj.
  destruct HI as (B & Hp & Hcp & _).
  (* the first write fails *)
  assert (E1 : w1 = park 0 (mkActivation it AwaitDisconnect)
                      (log [DisconnectCall]
                         (withMgr (set_connected false) w))).
  { subst w1. unfold resume. rewrite Hact.
    cbn [nth_error item parked]. now rewrite Hw. }
  assert (Hact1 : activations w1 = [mkActivation it AwaitDisconnect])
    by (rewrite E1; proj; now rewrite Hact).
  assert (Ht1 : trace w1 = trace w ++ [DisconnectCall])
    by (now rewrite E1).
  assert (Hc1 : connected (mgr w1) = false) by (now rewrite E1).
  assert (Hcp1 : connectPromise (mgr w1) = false)
    by (rewrite E1; exact Hcp).
  assert (Hp1 : processing (mgr w1) = true) by (rewrite E1; exact Hp).
  assert (Ha1 : BleConnectionManager.address (mgr w1) = address)
    by (rewrite E1; exact Haddr).
  assert (B1 : BooksW [it] 1 1 w1).
  { unfold BooksW in *. rewrite E1. proj.
    apply Books_neutral; auto with books. }
  (* the disconnect ends: one reconnect *)
  assert (E2 : w2 = park 0 (mkActivation it (AwaitConnect Retry true))
                      (log [ConnectCall (orUndefined address)]
                         (withMgr (set_connectPromise true)
                            (withClient (BleClient.disconnect (client w1))
                               w1)))).
  { subst w2. unfold resume. rewrite Hact1.
    cbn [nth_error item parked]. unfold attempt, ensureConnected. proj.
    rewrite Hc1, Hcp1, Ha1. reflexivity. }
  assert (Hact2 : activations w2
                  = [mkActivation it (AwaitConnect Retry true)])
    by (rewrite E2; proj; now rewrite Hact1).
  assert (Ht2 : trace w2
                = trace w1 ++ [ConnectCall (orUndefined address)])
    by (now rewrite E2).
  assert (Hp2 : processing (mgr w2) = true) by (rewrite E2; exact Hp1).
  assert (B2 : BooksW [it] 1 1 w2).
  { unfold BooksW in *. rewrite E2. proj.
    apply Books_neutral; auto with books. }
  assert (X2 : Extends w w2).
  { eapply Extends_trans; apply resume_extends. }
  refine (conj Ht1 (conj Hc1 (conj Ht2 (conj Hact2 _)))).
  (* the reconnect ends *)
  destruct (doConnect_books a3 w2 [it] 1 1 Hp2 B2) as [B3 F3].
  pose proof (doConnect_extends a3 w2) as X3.
  destruct (doConnect_busy_trace a3 w2 Hp2) as (es & Hes & Hsil).
  apply pick_silent in Hsil as (S1 & S2 & S3).
  assert (E3 : w3 = resume 0 a3 w2) by reflexivity.
  unfold resume in E3. rewrite Hact2 in E3.
  cbn [nth_error item parked] in E3.
  destruct (doConnect a3 w2) as [w' r]. cbn [fst snd] in *.
  destruct F3 as (Fa & Fp & _). rewrite Hact2 in Fa. rewrite Hp2 in Fp.
  assert (Hs' : settled w' = settled w).
  { eapply settled_same;
      [eapply Extends_trans; [exact X2 | exact X3] | exact B | exact B3]. }
  split; intro Hr; subst r; [| cbn [fail] in E3].
  - (* it fails: rejected *)
    cbn [fail] in E3.
    destruct (reject_then_next it (mkActivation it (AwaitConnect Retry true))
                (withMgr (set_connectPromise false) w') 1)
      as (HI3 & Hs3 & Hin3 & Hfr3); auto.
    rewrite <- E3 in *.
    refine (conj _ (conj Hin3 (conj (Inv_servesNext _ HI3) Hfr3))).
    rewrite Hs3. unfold settled in *. proj. now rewrite Hs'.
  - (* it succeeds: the second write *)
    assert (Hact3 : activations w3 = [mkActivation it (AwaitWrite Retry)])
      by (rewrite E3; proj; now rewrite Fa).
    assert (B3' : BooksW [it] 2 2 w3).
    { unfold BooksW in *. rewrite E3. proj. apply Books_write; auto. }
    assert (Hs3 : settled w3 = settled w).
    { eapply settled_same; [| exact B | exact B3'].
      eapply Extends_trans; [exact X2 | apply resume_extends]. }
    assert (Hk3 : writesOf (handle it) (trace w3) = 2%nat).
    { rewrite (Books_handle _ _ _ _ _ _ B3'). destruct B3'. lia. }
    assert (Ht3 : trace w3
                  = trace w ++ [DisconnectCall; ConnectCall (orUndefined address)]
                      ++ es ++ [WriteCall it]).
    { rewrite E3. proj. rewrite Hes, Ht2, Ht1.
      now rewrite <- !app_assoc. }
    refine (conj _ (conj _ (conj Hk3 (conj Hs3 _)))).
    { unfold targets. rewrite Ht3, !pick_app, S1. reflexivity. }
    { unfold written. rewrite Ht3, !pick_app, S2. reflexivity. }
    intro Hw4.
    assert (E4 : w4 = next 0 (log [Rejected it] w3)).
    { subst w4. unfold resume. rewrite Hact3.
      cbn [nth_error item parked]. now rewrite Hw4. }
    destruct (reject_then_next it (mkActivation it (AwaitWrite Retry)) w3 2)
      as (HI4 & Hs4 & Hin4 & Hfr4); auto.
    { rewrite E3. exact Fp. }
    { now rewrite E3. }
    rewrite <- E4 in *.
    refine (conj _ (conj Hin4 (conj (Inv_servesNext _ HI4) Hfr4))).
    now rewrite Hs4, Hs3.
Qed.

(** Two commands are enqueued and the link comes up; the first write
    fails, the reconnect succeeds, and the second write fails as well. *)
Lemma failed_write_retried_once_witness :
  let w :=
    run [Enqueue (setVolume 10); Enqueue (setVolume 12); Resume 0 radioOk]
      (BleConnectionManager.new "" (Some [requestDeviceInfo])) in
  let it := mkQueued (setVolume 10) 0 in
  let w3 :=
    resume 0 radioOk (resume 0 radioOk (resume 0 radioWriteFails w)) in
  let w4 := resume 0 radioWriteFails w3 in
  activations w = [mkActivation it (AwaitWrite First)]
  /\ write (characteristicUuid (command it)) radioWriteFails (client w)
     = Throw
  /\ writesOf (handle it) (trace w3) = 2%nat
  /\ settled w4 = settled w ++ [it]
  /\ forall more, writesOf (handle it) (trace (run more w4)) = 2%nat.
Proof.
  cbn zeta.
  split; [reflexivity |]. split; [reflexivity |].
  destruct (failed_write_retried_once ""
              (Some [requestDeviceInfo])
              [Enqueue (setVolume 10); Enqueue (setVolume 12);
               Resume 0 radioOk]
              (mkQueued (setVolume 10) 0)
              radioWriteFails radioOk radioOk radioWriteFails
              eq_refl eq_refl)
    as (_ & _ & _ & _ & _ & H).
  destruct (H eq_refl) as (_ & _ & Hk & _ & H4).
  destruct (H4 eq_refl) as (Hs & _ & _ & Hfr).
  split; [exact Hk |]. split; [exact Hs | exact Hfr].
Defined.

End Supervisor.

(* ================================================================== *)
(** * Part III: the rest of the code                                    *)
(* ================================================================== *)

(** ** [src/protocol/constants.ts], [src/protocol/LovesacDevice.ts]: the
    device verbs

    A verb of the device returns the device after its synchronous part and
    the command it hands to [connectionManager.enqueue]. *)

Module DeviceVerbs.
Import Js Settings Constants Responses Commands LovesacDevice.

(** Maps a preset read value to the corresponding write value; the
    [default] branch of the source is for numbers outside the enum. *)
Definition presetReadToWrite (readVal : PresetReadValue) : PresetWriteValue :=
  match readVal with
  | R_Movies => W_Movies
  | R_Music  => W_Music
  | R_TV     => W_TV
  | R_News   => W_News
  end.

Definition set_preset (p : Z) (st : DeviceState) : DeviceState :=
  mkDeviceState (power st) (volume st) (mute st) (source st) p
    (quietMode st) (bass st) (treble st) (centerVolume st) (rearVolume st)
    (balance st) (subwooferConnected st).

Definition setPower (on : bool) (d : Device) : Device * BleCommand :=
  (d, Commands.setPower on).

Definition setVolume (volume : Z) (d : Device) : Device * BleCommand :=
  (d, Commands.setVolume volume).

Definition volumeUp (step : Z) (d : Device) : Device * BleCommand :=
  let newVol := Z.min MAX_VOLUME (volume (state d) + step) in
  setVolume newVol d.

Definition volumeDown (step : Z) (d : Device) : Device * BleCommand :=
  let newVol := Z.max 0 (volume (state d) - step) in
  setVolume newVol d.

Definition setMute (muted : bool) (d : Device) : Device * BleCommand :=
  (d, Commands.setMute muted).

Definition setQuietMode (on : bool) (d : Device) : Device * BleCommand :=
  (d, Commands.setQuietMode on).

Definition setSource (source : SourceValue) (d : Device)
  : Device * BleCommand :=
  (d, Commands.setSource source).

(** Optimistically updates the cached preset, so switches respond at
    once. *)
Definition setPreset (preset : PresetWriteValue) (d : Device)
  : Device * BleCommand :=
  let d' :=
    match presetWriteToRead preset with
    | Some readVal =>
        mkDevice (set_preset (PresetReadValue_to_Z readVal) (state d))
          (stateListeners d) (stateInitialized d) (mcuVersion d)
          (versionListeners d)
    | None => d
    end in
  (d', Commands.setPreset preset).

Definition isPresetActive (readValue : PresetReadValue) (d : Device) : bool :=
  preset (state d) =? PresetReadValue_to_Z readValue.

End DeviceVerbs.

(** ** [src/accessory.ts]: preset switches and preset cycling *)

Module Accessory.
Import Js Constants Responses Commands LovesacDevice DeviceVerbs.

(** [config.presets]. *)
Record PresetsConfig : Set := mkPresets {
  movies : bool;
  music : bool;
  tv : bool;
  news : bool
}.

(** A preset switch, without its HomeKit service. *)
Record PresetSwitch : Set := mkPresetSwitch {
  presetRead : PresetReadValue;
  presetWrite : PresetWriteValue
}.

Definition presetConfigs
  : list ((PresetsConfig -> bool) * PresetReadValue * PresetWriteValue) :=
  [ (movies, R_Movies, W_Movies);
    (music, R_Music, W_Music);
    (tv, R_TV, W_TV);
    (news, R_News, W_News) ].

(** The switches the constructor creates: one per preset the configuration
    enables, in the order of [presetConfigs]. *)
Definition presetSwitches (config : PresetsConfig) : list PresetSwitch :=
  map (fun p => mkPresetSwitch (snd (fst p)) (snd p))
    (filter (fun p => fst (fst p) config) presetConfigs).

(** [array.indexOf(x)]: the first index holding [x], or [-1]. *)
Fixpoint indexOfFrom (x : Z) (l : list Z) (i : Z) : Z :=
  match l with
  | [] => -1
  | y :: t => if y =? x then i else indexOfFrom x t (i + 1)
  end.

Definition indexOf (x : Z) (l : list Z) : Z := indexOfFrom x l 0.

(** [array[i]]; [None] is [undefined]. *)
Definition arrayGet {A : Type} (l : list A) (i : Z) : option A :=
  if i <? 0 then None else nth_error l (Z.to_nat i).

(** [updatePresetSwitches]: the value each switch is updated to. *)
Definition updatePresetSwitches (activePreset : Z)
    (switches : list PresetSwitch) : list bool :=
  map (fun ps => PresetReadValue_to_Z (presetRead ps) =? activePreset)
    switches.

(** How [cyclePreset] ends.  It returns, having handed a command to the
    device or not, and having updated the switches or not; or it throws,
    with the device as it is by then and the command handed over, if
    any. *)
Inductive Cycled : Set :=
| Returned (d : Device) (sent : option BleCommand)
    (updated : option (list bool))
| Thrown (d : Device) (sent : option BleCommand).

(** [cyclePreset].  [written] is how the promise of
    [connectionManager.enqueue], awaited through [device.setPreset],
    settles: when it is rejected the [await] throws and
    [updatePresetSwitches] is not reached.  [presetReadToWrite] throws on
    [undefined]. *)
Definition cyclePreset (switches : list PresetSwitch) (d : Device)
    (written : Completion) : Cycled :=
  let enabledPresets := map presetRead switches in
  if (List.length enabledPresets =? 0)%nat then Returned d None None
  else
    let currentIndex :=
      indexOf (preset (state d)) (map PresetReadValue_to_Z enabledPresets) in
    let nextIndex :=
      Z.rem (currentIndex + 1) (Z.of_nat (List.length enabledPresets)) in
    match arrayGet enabledPresets nextIndex with
    | None => Thrown d None
    | Some r =>
        let (d', cmd) := setPreset (presetReadToWrite r) d in
        match written with
        | Throw => Thrown d' (Some cmd)
        | Normal =>
            Returned d' (Some cmd)
              (Some (updatePresetSwitches (PresetReadValue_to_Z r) switches))
        end
    end.

End Accessory.

(** ** [src/ble/BleConnectionManager.ts]: [isConnected] *)

Module ManagerMore.
Import BleClient BleConnectionManager.

Definition isConnected (w : World) : bool :=
  connected (mgr w) && BleClient.isConnected (client w).

(** The commands [enqueue] tags with the handles [n], [n + 1], ... *)
Fixpoint tagged (n : nat) (cmds : list Commands.BleCommand)
  : list QueuedCommand :=
  match cmds with
  | [] => []
  | c :: t => mkQueued c n :: tagged (S n) t
  end.

Definition resolvedOf (e : Event) : option QueuedCommand :=
  match e with Resolved q => Some q | _ => None end.

Definition rejectedOf (e : Event) : option QueuedCommand :=
  match e with Rejected q => Some q | _ => None end.

(** The commands resolved, and those rejected, so far. *)
Definition resolved (w : World) : list QueuedCommand :=
  pick resolvedOf (trace w).

Definition rejected (w : World) : list QueuedCommand :=
  pick rejectedOf (trace w).

End ManagerMore.

(** ** More on the state store *)

Section StateStoreMore.
Import Js Constants Responses.

(** The status value the state holds for a code: what a notification would
    have to carry to leave the state as it is.  The codes of the [default]
    branch of [applyResponse] have no field. *)
Definition wire (c : ResponseCode) (st : DeviceState) : option Z :=
  match c with
  | Volume => Some (volume st)
  | CenterVolume => Some (centerVolume st)
  | Treble => Some (treble st)
  | Bass => Some (bass st)
  | Mute => Some (if mute st then 1 else 0)
  | QuietMode => Some (if quietMode st then 1 else 0)
  | Balance => Some (balance st)
  | Source => Some (source st)
  | Power => Some (if power st then 0 else 1)
  | Preset => Some (preset st)
  | Subwoofer => Some (if subwooferConnected st then 1 else 0)
  | RearVolume => Some (rearVolume st)
  | Layout | Covering | ArmType => None
  end.

(** What [applyResponse] reports, code by code. *)
Lemma applyResponse_outcome (st : DeviceState) (c : ResponseCode) (v : Z) :
  let r := applyResponse st (mkParsed c v) in
  match declaredRange c with
  | Some (lo, hi) =>
      (fst r = OUT_OF_RANGE <-> ~ (lo <= v <= hi))
      /\ (fst r = Unchanged <-> (lo <= v <= hi /\ wire c st = Some v))
      /\ (fst r = Changed <-> (lo <= v <= hi /\ wire c st <> Some v))
      /\ (fst r <> Changed -> snd r = st)
  | None => r = (Unchanged, st)
  end.
Proof.
  cbn zeta. destruct st as [p vol m src pre q b t cv rv bal sub].
  destruct c; cbn [declaredRange]; try reflexivity;
    unfold applyResponse;
    cbn [code value wire power volume mute source preset quietMode bass
         treble centerVolume rearVolume balance subwooferConnected];
    match goal with
    | |- context [inRange v ?lo ?hi] =>
        destruct (inRange v lo hi) eqn:Hr; cbn [negb];
        [apply inRange_spec in Hr
        | assert (Hn : ~ (lo <= v <= hi))
            by (intro Hc; apply inRange_spec in Hc; congruence)]
    end;
    try (cbn [fst snd]; repeat split; intros;
         try discriminate; try tauto; try reflexivity; fail);
    first
      [ match goal with
        | |- context [Bool.eqb ?x ?y] =>
            destruct x; destruct (Z.eqb_spec v 1); destruct (Z.eqb_spec v 0);
            cbn [Bool.eqb fst snd]
        end
      | match goal with
        | |- context [?x =? v] => destruct (Z.eqb_spec x v); cbn [fst snd]
        end ];
    repeat split; intros; try discriminate; try tauto; try reflexivity;
    try lia; try congruence;
    try (intros [_ Hc]; inversion Hc; lia);
    try (match goal with H : _ /\ _ |- _ => destruct H as [_ Hc] end;
         first [congruence | inversion Hc; lia | exfalso; apply Hc; f_equal; lia]);
    try (intros [_ Hc]; exfalso; apply Hc; f_equal; lia).
Qed.

(** X1.  What [applyResponse] reports.  For a code with a declared range:
    out-of-range exactly when the value is outside it, unchanged exactly
    when the value is in range and already stored, changed exactly when it
    is in range and differs; the state is touched only when a change is
    reported.  For [Layout], [Covering] and [ArmType] every value is
    reported unchanged and the state is left alone. *)
Theorem applyResponse_report (st : DeviceState) (c : ResponseCode) (v : Z) :
  let r := applyResponse st (mkParsed c v) in
  match declaredRange c with
  | Some (lo, hi) =>
      (fst r = OUT_OF_RANGE <-> ~ (lo <= v <= hi))
      /\ (fst r = Unchanged <-> (lo <= v <= hi /\ wire c st = Some v))
      /\ (fst r = Changed <-> (lo <= v <= hi /\ wire c st <> Some v))
      /\ (fst r <> Changed -> snd r = st)
  | None => r = (Unchanged, st)
  end.
Proof. exact (applyResponse_outcome st c v). Qed.

(** A valid update is stored and touches nothing else. *)
Lemma applyResponse_stored (st : DeviceState) (c : ResponseCode) (v : Z) :
  validFor c v ->
  let st' := snd (applyResponse st (mkParsed c v)) in
  wire c st' = Some v
  /\ forall c', c' <> c -> wire c' st' = wire c' st.
Proof.
  intro H. cbn zeta.
  pose proof (applyResponse_outcome st c v) as R. cbn zeta in R.
  unfold validFor in H. destruct (declaredRange c) as [[lo hi] |] eqn:Hd;
    [| contradiction].
  destruct R as (_ & Ru & Rc & Rs).
  destruct (fst (applyResponse st (mkParsed c v))) eqn:Hf.
  - (* changed: the field is written *)
    split.
    + clear Ru Rc Rs. revert Hf.
      destruct st as [p vol m src pre q b t cv rv bal sub].
      destruct c; cbn [declaredRange] in Hd; inversion Hd; subst lo hi;
        unfold applyResponse;
        cbn [code value wire power volume mute source preset quietMode bass
             treble centerVolume rearVolume balance subwooferConnected];
        rewrite (inRange_true _ _ _ H); cbn [negb];
        match goal with
        | |- context [if ?b then (Unchanged, _) else _] => destruct b
        end; cbn [fst snd wire power volume mute source preset quietMode
                  bass treble centerVolume rearVolume balance
                  subwooferConnected];
        try discriminate; intros _; try reflexivity;
        destruct (Z.eqb_spec v 1); destruct (Z.eqb_spec v 0);
        f_equal; lia.
    + clear Ru Rc Rs Hf. intros c' Hc'.
      destruct st as [p vol m src pre q b t cv rv bal sub].
      destruct c; cbn [declaredRange] in Hd; inversion Hd; subst lo hi;
        unfold applyResponse;
        cbn [code value power volume mute source preset quietMode bass
             treble centerVolume rearVolume balance subwooferConnected];
        rewrite (inRange_true _ _ _ H); cbn [negb];
        match goal with
        | |- context [if ?b then (Unchanged, _) else _] => destruct b
        end; cbn [snd]; try reflexivity;
        destruct c'; try reflexivity; contradiction.
  - (* unchanged: the value was there *)
    rewrite (Rs ltac:(discriminate)). split; [| reflexivity].
    apply Ru. reflexivity.
  - exfalso. pose proof (applyResponse_valid st c v) as Hv.
    unfold validFor in Hv. rewrite Hd in Hv. exact (Hv H Hf).
Qed.

(** X2.  A valid update is stored and touches nothing else: after applying
    a value valid for its code, the state holds that value for the code,
    and holds for every other code what it held before. *)
Theorem applyResponse_stores (st : DeviceState) (c : ResponseCode) (v : Z) :
  validFor c v ->
  let st' := snd (applyResponse st (mkParsed c v)) in
  wire c st' = Some v
  /\ forall c', c' <> c -> wire c' st' = wire c' st.
Proof. exact (applyResponse_stored st c v). Qed.

Lemma applyResponse_stores_witness :
  validFor Balance 50
  /\ wire Balance (snd (applyResponse createDefaultState (mkParsed Balance 50)))
     = Some 50.
Proof.
  split; [cbn; lia |].
  apply (applyResponse_stores createDefaultState Balance 50). cbn. lia.
Defined.

(** X3.  Applying the same pair a second time, right after the first,
    never reports a change, whatever the state, the code and the value
    (valid or not); and for a field that starts at the sentinel [-1] the
    first valid value applied to a fresh state is reported as a change. *)
Theorem applyResponse_second_time (st : DeviceState) (r : ParsedResponse) :
  fst (applyResponse (snd (applyResponse st r)) r) <> Changed
  /\ (hasSentinel (code r) = true -> validFor (code r) (value r) ->
      fst (applyResponse createDefaultState r) = Changed).
Proof.
  split; [apply applyResponse_again |].
  destruct r as [c v]. apply applyResponse_first_sentinel.
Qed.

End StateStoreMore.

(** ** More on the codec *)

Section CodecMore.
Import Js Settings Constants Responses Commands.

(** X4.  Decoding undoes framing: a frame made of any header of two bytes
    or more followed by a status code and a value decodes to that code and
    value, unless it carries the version marker [AA 01 03] at offsets 2 to
    4. *)
Theorem parseNotification_roundtrip (header : Buffer) (c : ResponseCode)
    (v : Z) :
  (2 <= List.length header)%nat ->
  versionMarker (header ++ [ResponseCode_to_Z c; v]) = false ->
  parseNotification (header ++ [ResponseCode_to_Z c; v])
  = Some (mkParsed c v).
Proof.
  intros Hlen Hm. apply parseNotification_result. cbn [code value].
  rewrite length_app. cbn [List.length].
  split; [lia |]. split; [exact Hm |]. unfold byteAt. split.
  - rewrite nth_error_app2 by lia.
    replace (List.length header + 2 - 2 - List.length header)%nat
      with 0%nat by lia. reflexivity.
  - rewrite nth_error_app2 by lia.
    replace (List.length header + 2 - 1 - List.length header)%nat
      with 1%nat by lia. reflexivity.
Qed.

Lemma parseNotification_roundtrip_witness :
  (2 <= List.length [0xCC; 0x05; 0xAA])%nat
  /\ versionMarker ([0xCC; 0x05; 0xAA] ++ [ResponseCode_to_Z Volume; 12])
     = false
  /\ parseNotification [0xCC; 0x05; 0xAA; 0x01; 12]
     = Some (mkParsed Volume 12).
Proof.
  split; [cbn; lia |]. split; [reflexivity |].
  apply (parseNotification_roundtrip [0xCC; 0x05; 0xAA] Volume 12);
    [cbn; lia | reflexivity].
Defined.

(** X5.  The two preset codings.  Read and write values are in one-to-one
    correspondence on the four presets ([Manual] has no read value); the
    number written for a preset is never the number read back for it; and
    a write value, received as a preset status, is out of range. *)
Theorem preset_codings (r : PresetReadValue) (w : PresetWriteValue)
    (st : DeviceState) :
  presetWriteToRead (DeviceVerbs.presetReadToWrite r) = Some r
  /\ (presetWriteToRead w = Some r <-> DeviceVerbs.presetReadToWrite r = w)
  /\ (presetWriteToRead w = None <-> w = W_Manual)
  /\ PresetWriteValue_to_Z (DeviceVerbs.presetReadToWrite r) <> PresetReadValue_to_Z r
  /\ applyResponse st (mkParsed Preset (PresetWriteValue_to_Z w))
     = (OUT_OF_RANGE, st).
Proof.
  repeat split; try (destruct r; reflexivity); try (destruct w; reflexivity);
    try (destruct r, w; cbn; intro H; first [reflexivity | discriminate]);
    try (destruct w; cbn; intro H; first [reflexivity | discriminate]);
    destruct r; cbn; lia.
Qed.



End CodecMore.

(** ** More on the device: rescaling, verbs, notifications *)

Section DeviceMore.
Import Js Settings Constants Responses LovesacDevice.

(** A boolean test that holds on [0 .. n] holds on every integer there. *)
Lemma upto (n : nat) (f : Z -> bool) :
  forallb f (map Z.of_nat (seq 0 (S n))) = true ->
  forall z, 0 <= z <= Z.of_nat n -> f z = true.
Proof.
  intros H z Hz. rewrite forallb_forall in H. apply H.
  replace z with (Z.of_nat (Z.to_nat z)) by lia.
  apply in_map, in_seq. lia.
Qed.

(** X7.  From percent to volume and back.  A percentage in [0, 100] gives
    a volume in [0, 36], and the percentage shown for that volume is
    within 1 of the one asked for. *)
Theorem percent_volume_percent (p : Z) :
  0 <= p <= 100 ->
  0 <= percentToVolume p <= 36
  /\ Z.abs (volumeToPercent (percentToVolume p) - p) <= 1.
Proof.
  intro H.
  pose proof (upto 100
    (fun p => (0 <=? percentToVolume p) && (percentToVolume p <=? 36)
              && (Z.abs (volumeToPercent (percentToVolume p) - p) <=? 1))
    ltac:(vm_compute; reflexivity) p H) as Hp.
  cbn beta in Hp. apply andb_true_iff in Hp as [Hp H3].
  apply andb_true_iff in Hp as [H1 H2]. lia.
Qed.

Lemma percent_volume_percent_witness :
  0 <= 50 <= 100
  /\ 0 <= percentToVolume 50 <= 36
  /\ Z.abs (volumeToPercent (percentToVolume 50) - 50) <= 1.
Proof.
  split; [lia | apply (percent_volume_percent 50); lia].
Defined.

(** X8.  From volume to percent and back.  A volume in [0, 36] gives a
    percentage in [0, 100] from which [percentToVolume] recovers the volume
    exactly: distinct volumes are shown as distinct percentages. *)
Theorem volume_percent_volume (v : Z) :
  0 <= v <= 36 ->
  0 <= volumeToPercent v <= 100
  /\ percentToVolume (volumeToPercent v) = v.
Proof.
  intro H. split; [| now apply percentToVolume_volumeToPercent].
  pose proof (upto 36
    (fun v => (0 <=? volumeToPercent v) && (volumeToPercent v <=? 100))
    ltac:(vm_compute; reflexivity) v H) as Hv.
  cbn beta in Hv. apply andb_true_iff in Hv as [H1 H2]. lia.
Qed.

Lemma volume_percent_volume_witness :
  0 <= 36 <= 36
  /\ 0 <= volumeToPercent 36 <= 100
  /\ percentToVolume (volumeToPercent 36) = 36.
Proof.
  split; [lia | apply (volume_percent_volume 36); lia].
Defined.

(** X9.  Both rescales keep the order on their documented ranges: a larger
    percentage never gives a smaller volume, and a larger volume never
    gives a smaller percentage. *)
Theorem rescale_monotone (a b : Z) :
  a <= b ->
  (0 <= a -> b <= 100 -> percentToVolume a <= percentToVolume b)
  /\ (0 <= a -> b <= 36 -> volumeToPercent a <= volumeToPercent b).
Proof.
  intro Hab. split; intros Ha Hb.
  - pose proof (upto 100
      (fun x => forallb
                  (fun y => implb (x <=? y)
                              (percentToVolume x <=? percentToVolume y))
                  (map Z.of_nat (seq 0 101)))
      ltac:(vm_compute; reflexivity) a ltac:(lia)) as H.
    cbn beta in H.
    pose proof (upto 100 _ H b ltac:(lia)) as H'. cbn beta in H'.
    destruct (Z.leb_spec a b); [| lia]. cbn [implb] in H'. lia.
  - pose proof (upto 36
      (fun x => forallb
                  (fun y => implb (x <=? y)
                              (volumeToPercent x <=? volumeToPercent y))
                  (map Z.of_nat (seq 0 37)))
      ltac:(vm_compute; reflexivity) a ltac:(lia)) as H.
    cbn beta in H.
    pose proof (upto 36 _ H b ltac:(lia)) as H'. cbn beta in H'.
    destruct (Z.leb_spec a b); [| lia]. cbn [implb] in H'. lia.
Qed.

Lemma rescale_monotone_witness :
  40 <= 60
  /\ percentToVolume 40 <= percentToVolume 60.
Proof.
  split; [lia |].
  apply (proj1 (rescale_monotone 40 60 ltac:(lia))); lia.
Defined.

(** X10.  The volume steps.  [volumeUp] and [volumeDown] leave the device
    as it is and send an absolute volume, never a relative step: the frame
    of [setVolume] for the stored volume plus, or minus, the step, clamped
    to [0, 36], for every stored volume (the sentinel [-1] included) and
    every integer step. *)
Theorem volume_steps_clamp (d : Device) (step : Z) :
  DeviceVerbs.volumeUp step d
  = (d, {| Commands.characteristicUuid := CharUUID.EqControl;
           Commands.data := [0xAA; 0x03; 0x02; 0x01;
                             Z.max 0 (Z.min 36 (volume (state d) + step))] |})
  /\ DeviceVerbs.volumeDown step d
     = (d, {| Commands.characteristicUuid := CharUUID.EqControl;
              Commands.data := [0xAA; 0x03; 0x02; 0x01;
                                Z.max 0 (Z.min 36 (volume (state d) - step))] |}).
Proof.
  unfold DeviceVerbs.volumeUp, DeviceVerbs.volumeDown, DeviceVerbs.setVolume,
    Commands.setVolume, Commands.eqCommand, MAX_VOLUME.
  rewrite !formatA_clamped by lia.
  replace (Z.min 36 (Z.min 36 (volume (state d) + step)))
    with (Z.min 36 (volume (state d) + step)) by lia.
  replace (Z.max 0 (Z.min 36 (Z.max 0 (volume (state d) - step))))
    with (Z.max 0 (Z.min 36 (volume (state d) - step))) by lia.
  split; reflexivity.
Qed.

(** *** [handleNotification] *)

(** Every listener call of a list of effects is a state-listener call
    with the given code and value. *)
Definition carries (c : ResponseCode) (v : Z) (e : Effect) : Prop :=
  match e with
  | CallState _ c' v' => c' = c /\ v' = v
  | CallVersion _ => False
  | _ => True
  end.

Lemma callStateListeners_carry (ls : list StateChangeListener)
    (c : ResponseCode) (v : Z) :
  Forall (carries c v) (callStateListeners ls c v).
Proof.
  induction ls as [| l ls IH]; cbn [callStateListeners]; [constructor |].
  destruct (sl_body l c v); repeat constructor; auto.
Qed.

Lemma callVersionListeners_no_state (ls : list VersionListener) :
  names calledState (fst (callVersionListeners ls)) = [].
Proof.
  induction ls as [| l ls IH]; cbn [callVersionListeners]; [reflexivity |].
  destruct (vl_body l tt); [| reflexivity].
  destruct (callVersionListeners ls) as [effs c]. exact IH.
Qed.

Lemma handleNotification_status_frame (d : Device) (data : Buffer) :
  versionResponseShape data = false ->
  handleNotification d data
  = match parseNotification data with
    | None => (d, [LogDebug], Normal)
    | Some parsed =>
        match applyResponse (state d) parsed with
        | (OUT_OF_RANGE, _) => (d, [LogWarn], Normal)
        | (changed, st') =>
            let d' := mkDevice st' (stateListeners d) true (mcuVersion d)
                        (versionListeners d) in
            match changed with
            | Changed =>
                (d',
                 LogDebug :: callStateListeners (stateListeners d)
                               (code parsed) (value parsed),
                 Normal)
            | _ => (d', [], Normal)
            end
        end
    end.
Proof.
  intro H. unfold handleNotification. unfold versionResponseShape in H.
  now rewrite H.
Qed.

(** X11.  A status notification in range.  The device stores what
    [applyResponse] stores and is marked initialised; its listeners and its
    firmware version are left alone; the state listeners are called, every
    one of them, in registration order and with the code and value of the
    frame, exactly when a change is reported, and not at all otherwise; and
    the call returns normally even if listeners throw. *)
Theorem handleNotification_status (d : Device) (data : Buffer)
    (r : ParsedResponse) :
  versionResponseShape data = false ->
  parseNotification data = Some r ->
  fst (applyResponse (state d) r) <> OUT_OF_RANGE ->
  let d' := fst (fst (handleNotification d data)) in
  let effects := snd (fst (handleNotification d data)) in
  snd (handleNotification d data) = Normal
  /\ state d' = snd (applyResponse (state d) r)
  /\ stateInitialized d' = true
  /\ stateListeners d' = stateListeners d
  /\ versionListeners d' = versionListeners d
  /\ mcuVersion d' = mcuVersion d
  /\ Forall (carries (code r) (value r)) effects
  /\ names calledState effects
     = match fst (applyResponse (state d) r) with
       | Changed => map sl_name (stateListeners d)
       | _ => []
       end.
Proof.
  intros Hv Hp Hr. cbn zeta.
  rewrite (handleNotification_status_frame d data Hv), Hp.
  destruct (applyResponse (state d) r) as [res st'].
  cbn [fst snd] in *. destruct res; [| | contradiction]; cbn [fst snd names].
  - repeat split; auto.
    + constructor; [exact I | apply callStateListeners_carry].
    + cbn [calledState]. apply callStateListeners_all.
  - repeat split; auto.
Qed.

(** A device with two state listeners, the first of which throws. *)
Definition twoStateListeners : Device :=
  onStateChange (mkStateListener 1 (fun _ _ => Normal))
    (onStateChange (mkStateListener 0 (fun _ _ => Throw))
       LovesacDevice.new).

Lemma handleNotification_status_witness :
  let data := [0xCC; 0x05; 0xAA; 0x01; 0x0C] in
  versionResponseShape data = false
  /\ parseNotification data = Some (mkParsed Volume 12)
  /\ snd (handleNotification twoStateListeners data) = Normal
  /\ names calledState (snd (fst (handleNotification twoStateListeners data)))
     = [0%nat; 1%nat].
Proof.
  cbn zeta. split; [reflexivity |]. split; [reflexivity |].
  destruct (handleNotification_status twoStateListeners
              [0xCC; 0x05; 0xAA; 0x01; 0x0C] (mkParsed Volume 12)
              eq_refl eq_refl ltac:(discriminate))
    as (H1 & _ & _ & _ & _ & _ & _ & H2).
  split; [exact H1 | exact H2].
Defined.

Lemma versionResponseShape_length (data : Buffer) :
  versionResponseShape data = true ->
  (8 <= List.length data)%nat /\ versionMarker data = true.
Proof.
  unfold versionResponseShape, versionMarker. intro H.
  apply andb_true_iff in H as [H H4]. apply andb_true_iff in H as [H H3].
  apply andb_true_iff in H as [H1 H2]. apply Nat.leb_le in H1.
  split; [exact H1 |]. rewrite H2, H3, H4.
  destruct (Nat.leb_spec 5 (List.length data)); [reflexivity | lia].
Qed.

(** A version report is never decoded as a status. *)
Lemma version_report_not_parsed (data : Buffer) :
  versionResponseShape data = true -> parseNotification data = None.
Proof.
  intro H. destruct (versionResponseShape_length data H) as [_ Hm].
  unfold parseNotification. unfold versionMarker in Hm. rewrite Hm.
  destruct (Nat.ltb_spec (List.length data) 4); reflexivity.
Qed.

(** X12.  A notification that is dropped.  A frame that is not a version
    report and does not decode, or a frame that decodes to a value outside
    the range of its code, leaves the whole device as it was (state,
    initialised flag, version, listeners), calls no listener and returns
    normally.  (A version report does not decode either; what it does is
    the matter of X13.) *)
Theorem handleNotification_dropped (d : Device) (data : Buffer) :
  (versionResponseShape data = false /\ parseNotification data = None)
  \/ (exists r, parseNotification data = Some r
                /\ fst (applyResponse (state d) r) = OUT_OF_RANGE) ->
  fst (fst (handleNotification d data)) = d
  /\ names calledState (snd (fst (handleNotification d data))) = []
  /\ names calledVersion (snd (fst (handleNotification d data))) = []
  /\ snd (handleNotification d data) = Normal.
Proof.
  intros [[Hv Hp] | (r & Hp & Hr)].
  - rewrite (handleNotification_status_frame d data Hv), Hp. repeat split.
  - assert (Hv : versionResponseShape data = false).
    { destruct (versionResponseShape data) eqn:Hv; [| reflexivity].
      rewrite (version_report_not_parsed data Hv) in Hp. discriminate Hp. }
    rewrite (handleNotification_status_frame d data Hv), Hp.
    destruct (applyResponse (state d) r) as [res st']. cbn [fst] in Hr.
    subst res. repeat split.
Qed.

Lemma handleNotification_dropped_witness :
  let short := [0xCC; 0x05; 0x01] in
  let loud := [0xCC; 0x05; 0xAA; 0x01; 0xC8] in
  (versionResponseShape short = false /\ parseNotification short = None)
  /\ fst (fst (handleNotification twoStateListeners short))
     = twoStateListeners
  /\ (exists r, parseNotification loud = Some r
                /\ fst (applyResponse (state twoStateListeners) r)
                   = OUT_OF_RANGE)
  /\ fst (fst (handleNotification twoStateListeners loud))
     = twoStateListeners.
Proof.
  cbn zeta.
  assert (H1 : versionResponseShape [0xCC; 0x05; 0x01] = false
               /\ parseNotification [0xCC; 0x05; 0x01] = None)
    by (split; reflexivity).
  assert (H2 : exists r,
             parseNotification [0xCC; 0x05; 0xAA; 0x01; 0xC8] = Some r
             /\ fst (applyResponse (state twoStateListeners) r)
                = OUT_OF_RANGE)
    by (exists (mkParsed Volume 200); split; reflexivity).
  split; [exact H1 |]. split.
  - apply (handleNotification_dropped twoStateListeners
             [0xCC; 0x05; 0x01] (or_introl H1)).
  - split; [exact H2 |].
    apply (handleNotification_dropped twoStateListeners
             [0xCC; 0x05; 0xAA; 0x01; 0xC8] (or_intror H2)).
Defined.

Lemma truthy_app_r (s1 s2 : string) :
  truthy s2 = true -> truthy (s1 ++ s2) = true.
Proof. destruct s1; cbn; auto. Qed.

(** X13.  A version report [.. .. AA 01 03 <type> <major> <minor>].  It is
    never decoded as a status, whatever its last two bytes, and never
    touches the device state, the initialised flag or the state listeners.
    Once a firmware version is known, or when the report is not for the
    main controller (type [01]), the device is left as it was and no
    listener is called.  Otherwise the version becomes
    ["<major>.<minor>"], a non-empty string: the version is reported at
    most once. *)
Theorem handleNotification_version (d : Device) (data : Buffer) :
  versionResponseShape data = true ->
  let d' := fst (fst (handleNotification d data)) in
  let effects := snd (fst (handleNotification d data)) in
  parseNotification data = None
  /\ state d' = state d
  /\ stateInitialized d' = stateInitialized d
  /\ stateListeners d' = stateListeners d
  /\ names calledState effects = []
  /\ (truthy (mcuVersion d) = true \/ byteIs data 5 0x01 = false ->
      d' = d /\ effects = [] /\ snd (handleNotification d data) = Normal)
  /\ (truthy (mcuVersion d) = false -> byteIs data 5 0x01 = true ->
      truthy (mcuVersion d') = true
      /\ exists major minor,
          byteAt data 6 = Some major /\ byteAt data 7 = Some minor
          /\ mcuVersion d'
             = (String_of_Z major ++ "." ++ String_of_Z minor)%string).
Proof.
  intro H. cbn zeta.
  destruct (versionResponseShape_length data H) as [Hlen Hm].
  assert (Hparse : parseNotification data = None).
  { unfold parseNotification. unfold versionMarker in Hm. rewrite Hm.
    destruct (Nat.ltb_spec (List.length data) 4); reflexivity. }
  unfold handleNotification. unfold versionResponseShape in H. rewrite H.
  destruct (byteAt data 6) as [major |] eqn:H6;
    [| apply nth_error_None in H6; lia].
  destruct (byteAt data 7) as [minor |] eqn:H7;
    [| apply nth_error_None in H7; lia].
  destruct (byteIs data 5 1) eqn:H5; cbn [andb].
  - destruct (truthy (mcuVersion d)) eqn:Ht; cbn [negb].
    + cbn [fst snd names].
      refine (conj Hparse (conj eq_refl (conj eq_refl (conj eq_refl
                (conj eq_refl (conj _ _)))))).
      * intros _. repeat split.
      * discriminate.
    + pose proof (callVersionListeners_no_state (versionListeners d)) as Hn.
      destruct (callVersionListeners (versionListeners d)) as [effs c].
      cbn [fst snd names calledState state stateInitialized stateListeners
           mcuVersion] in *.
      refine (conj Hparse (conj eq_refl (conj eq_refl (conj eq_refl
                (conj Hn (conj _ _)))))).
      * intros [Hc | Hc]; discriminate.
      * intros _ _. split; [apply truthy_app_r; reflexivity |].
        exists major, minor. repeat split.
  - cbn [fst snd names].
    refine (conj Hparse (conj eq_refl (conj eq_refl (conj eq_refl
              (conj eq_refl (conj _ _)))))).
    + intros _. repeat split.
    + discriminate.
Qed.

Lemma handleNotification_version_witness :
  versionResponseShape mcuVersionReport = true
  /\ parseNotification mcuVersionReport = None
  /\ state (fst (fst (handleNotification LovesacDevice.new mcuVersionReport)))
     = createDefaultState.
Proof.
  split; [reflexivity |].
  destruct (handleNotification_version LovesacDevice.new mcuVersionReport
              eq_refl) as (H1 & H2 & _).
  split; [exact H1 | exact H2].
Defined.

(** X14.  The optimistic preset.  [setPreset] of a preset with a read
    value hands [commands.setPreset] to the queue and makes that preset
    the active one at once, before any write, touching no other field; a
    status notification that later confirms the preset finds nothing to
    change, so no state listener is called for it. *)
Theorem setPreset_optimistic (d : Device) (p : PresetWriteValue)
    (r : PresetReadValue) :
  presetWriteToRead p = Some r ->
  let d' := fst (DeviceVerbs.setPreset p d) in
  snd (DeviceVerbs.setPreset p d) = Commands.setPreset p
  /\ DeviceVerbs.isPresetActive r d' = true
  /\ (forall r', r' <> r -> DeviceVerbs.isPresetActive r' d' = false)
  /\ (forall c, c <> Preset -> wire c (state d') = wire c (state d))
  /\ (forall data,
        versionResponseShape data = false ->
        parseNotification data
        = Some (mkParsed Preset (PresetReadValue_to_Z r)) ->
        names calledState (snd (fst (handleNotification d' data))) = []
        /\ state (fst (fst (handleNotification d' data))) = state d').
Proof.
  intro H. cbn zeta. unfold DeviceVerbs.setPreset. rewrite H.
  cbn [fst snd]. unfold DeviceVerbs.isPresetActive.
  cbn [state DeviceVerbs.set_preset preset].
  split; [reflexivity |]. split; [apply Z.eqb_refl |].
  split; [intros r' Hr'; destruct r, r'; try reflexivity; contradiction |].
  split; [intros c Hc; destruct c; try reflexivity; contradiction |].
  intros data Hv Hp.
  rewrite (handleNotification_status_frame _ data Hv), Hp.
  unfold applyResponse. cbn [code value state DeviceVerbs.set_preset preset].
  rewrite Z.eqb_refl.
  assert (Hr : inRange (PresetReadValue_to_Z r) 0 3 = true)
    by (destruct r; reflexivity).
  rewrite Hr. cbn. split; reflexivity.
Qed.

Lemma setPreset_optimistic_witness :
  presetWriteToRead W_Music = Some R_Music
  /\ DeviceVerbs.isPresetActive R_Music
       (fst (DeviceVerbs.setPreset W_Music LovesacDevice.new)) = true.
Proof.
  split; [reflexivity |].
  apply (setPreset_optimistic LovesacDevice.new W_Music R_Music eq_refl).
Defined.

End DeviceMore.

(** ** The accessory: preset switches *)

Section AccessoryProperties.
Import Js Constants Responses Commands LovesacDevice DeviceVerbs Accessory.

(** The presets a configuration enables, in switch order. *)
Definition enabled (config : PresetsConfig) : list PresetReadValue :=
  map presetRead (presetSwitches config).

(** The device after one press of the Info key ([cyclePreset]), the
    write it enqueues settling as [written]. *)
Definition press (config : PresetsConfig) (written : Completion)
    (d : Device) : Device :=
  match cyclePreset (presetSwitches config) d written with
  | Returned d' _ _ => d'
  | Thrown d' _ => d'
  end.

(** The device after [k] presses, the write of press [j] settling as
    [outcome j]. *)
Fixpoint pressed (config : PresetsConfig) (outcome : nat -> Completion)
    (k : nat) (d : Device) : Device :=
  match k with
  | O => d
  | S j => press config (outcome j) (pressed config outcome j d)
  end.

Lemma preset_cases (p : Z) :
  p = 0 \/ p = 1 \/ p = 2 \/ p = 3
  \/ ((0 =? p) = false /\ (1 =? p) = false /\ (2 =? p) = false
      /\ (3 =? p) = false).
Proof.
  destruct (Z.eqb_spec 0 p); [auto |]. destruct (Z.eqb_spec 1 p); [auto |].
  destruct (Z.eqb_spec 2 p); [auto |]. destruct (Z.eqb_spec 3 p); auto 10.
Qed.

(** X15.  One press of the Info key.  With no preset enabled
    [cyclePreset] does nothing and returns.  Otherwise it hands to the
    device the write command of an enabled preset, which becomes the
    active one at once; when the stored preset is not an enabled one (the
    sentinel, or a preset whose switch is disabled) that preset is the
    first enabled one.  It then throws exactly when the enqueued write is
    rejected, leaving the switches as they were and the cached preset as
    set; when the write is resolved it updates the switches for that
    preset and returns.  It never throws for another reason. *)
Theorem cyclePreset_press (config : PresetsConfig) (d : Device)
    (written : Completion) :
  let result := cyclePreset (presetSwitches config) d written in
  (enabled config = [] -> result = Returned d None None)
  /\ (enabled config <> [] ->
      exists r,
        In r (enabled config)
        /\ ((forall cur, In cur (enabled config) ->
               preset (state d) <> PresetReadValue_to_Z cur) ->
            nth_error (enabled config) 0 = Some r)
        /\ let d' := fst (setPreset (presetReadToWrite r) d) in
           let cmd := Commands.setPreset (presetReadToWrite r) in
           isPresetActive r d' = true
           /\ result
              = match written with
                | Throw => Thrown d' (Some cmd)
                | Normal =>
                    Returned d' (Some cmd)
                      (Some (updatePresetSwitches (PresetReadValue_to_Z r)
                               (presetSwitches config)))
                end).
Proof.
  cbn zeta. destruct d as [st sl si mv vl].
  destruct st as [p vol m src pre q b t cv rv bal sub].
  destruct config as [[] [] [] []];
    (split; [intro He; try discriminate He; reflexivity |]);
    intro Hne; try (exfalso; apply Hne; reflexivity); clear Hne;
    destruct (preset_cases pre)
      as [-> | [-> | [-> | [-> | (E0 & E1 & E2 & E3)]]]];
    unfold cyclePreset, enabled, indexOf;
    cbn [presetSwitches presetConfigs filter map fst snd movies music tv news
         presetRead List.length Nat.eqb indexOfFrom PresetReadValue_to_Z
         state preset];
    rewrite ?E0, ?E1, ?E2, ?E3;
    match goal with
    | |- context [arrayGet ?l ?i] =>
        let x := eval vm_compute in (arrayGet l i) in
        lazymatch x with
        | Some ?r =>
            change (arrayGet l i) with (Some r); exists r;
            (split; [cbn; tauto |]);
            (split;
             [ intro H;
               try reflexivity;
               exfalso;
               first [ apply (H R_Movies); [cbn; tauto | reflexivity]
                     | apply (H R_Music); [cbn; tauto | reflexivity]
                     | apply (H R_TV); [cbn; tauto | reflexivity]
                     | apply (H R_News); [cbn; tauto | reflexivity] ]
             | split; [reflexivity | destruct written; reflexivity] ])
        end
    end.
Qed.

(** Whether the write is rejected or not, the device after a press is the
    same. *)
Lemma press_any (config : PresetsConfig) (written : Completion)
    (d : Device) :
  press config written d = press config Normal d.
Proof.
  unfold press, cyclePreset.
  destruct (List.length (map presetRead (presetSwitches config)) =? 0)%nat;
    [reflexivity |].
  destruct (arrayGet _ _); [| reflexivity].
  destruct (setPreset _ d). destruct written; reflexivity.
Qed.

Lemma pressed_iter (config : PresetsConfig) (outcome : nat -> Completion)
    (d : Device) (k : nat) :
  pressed config outcome k d = Nat.iter k (press config Normal) d.
Proof.
  induction k as [| k IH]; cbn [pressed Nat.iter nat_rect]; [reflexivity |].
  now rewrite press_any, IH.
Qed.

(** X16.  The Info key cycles.  With [n] presets enabled and one of them
    stored as the current preset, [n] presses activate every enabled
    preset once, none twice, and end on the preset they started from,
    whether the writes they enqueue are resolved or rejected. *)
Theorem cyclePreset_cycles (config : PresetsConfig) (d : Device)
    (cur : PresetReadValue) (outcome : nat -> Completion) :
  In cur (enabled config) ->
  preset (state d) = PresetReadValue_to_Z cur ->
  let n := List.length (enabled config) in
  let visited :=
    map (fun k => preset (state (pressed config outcome k d))) (seq 1 n) in
  NoDup visited
  /\ (forall x, In x visited <-> In x (map PresetReadValue_to_Z (enabled config)))
  /\ preset (state (pressed config outcome n d)) = preset (state d).
Proof.
  intros Hin Hp. cbn zeta.
  rewrite (map_ext _ (fun k => preset (state (Nat.iter k (press config Normal) d))))
    by (intro k; now rewrite pressed_iter).
  rewrite pressed_iter.
  destruct d as [st sl si mv vl].
  destruct st as [p vol m src pre q b t cv rv bal sub].
  cbn [state preset] in Hp. subst pre.
  destruct config as [[] [] [] []]; destruct cur;
    cbn in Hin; try (exfalso; intuition discriminate); clear Hin;
    vm_compute;
    (split; [repeat constructor; cbn; intuition discriminate |]);
    (split; [intro x; tauto | reflexivity]).
Qed.

Lemma cyclePreset_cycles_witness :
  In R_TV (enabled (mkPresets true false true true))
  /\ preset (state (fst (setPreset W_TV LovesacDevice.new)))
     = PresetReadValue_to_Z R_TV
  /\ preset (state (pressed (mkPresets true false true true)
                      (fun j => if Nat.even j then Throw else Normal) 3
                      (fst (setPreset W_TV LovesacDevice.new))))
     = PresetReadValue_to_Z R_TV.
Proof.
  split; [cbn; tauto |]. split; [reflexivity |].
  apply (cyclePreset_cycles (mkPresets true false true true)
           (fst (setPreset W_TV LovesacDevice.new)) R_TV
           (fun j => if Nat.even j then Throw else Normal));
    [cbn; tauto | reflexivity].
Defined.

(** X17.  One preset at a time.  [updatePresetSwitches] turns on at most
    one switch, and turns one on exactly when the active preset is an
    enabled one. *)
Theorem updatePresetSwitches_one (config : PresetsConfig) (active : Z) :
  let ons := updatePresetSwitches active (presetSwitches config) in
  (count_occ bool_dec ons true <= 1)%nat
  /\ (In true ons
      <-> exists r, In r (enabled config) /\ active = PresetReadValue_to_Z r).
Proof.
  cbn zeta. unfold updatePresetSwitches, enabled.
  destruct config as [[] [] [] []];
    destruct (preset_cases active)
      as [-> | [-> | [-> | [-> | (E0 & E1 & E2 & E3)]]]];
    cbn [presetSwitches presetConfigs filter map fst snd movies music tv news
         presetRead PresetReadValue_to_Z];
    rewrite ?E0, ?E1, ?E2, ?E3; cbn;
    (split; [lia |]);
    (split;
     [ intro H;
       first [ contradiction
             | exists R_Movies; cbn; split; [tauto | reflexivity]
             | exists R_Music; cbn; split; [tauto | reflexivity]
             | exists R_TV; cbn; split; [tauto | reflexivity]
             | exists R_News; cbn; split; [tauto | reflexivity]
             | intuition discriminate ]
     | intros (r & Hr & Ha);
       first [ contradiction
             | destruct r; cbn in Hr, Ha; subst;
               try discriminate; intuition (try discriminate);
               cbn in *; congruence ] ]).
Qed.

End AccessoryProperties.

(** ** The client *)

Section ClientProperties.
Import Js Settings BleClient.

(** X18.  What [connect] does.  On a connected client it does nothing and
    returns.  Otherwise it starts exactly one scan; it returns normally
    exactly when a peripheral is found, the link comes up and the discovery
    succeeds, and then the client is connected, resolved to that
    peripheral, and knows the discovered characteristics next to those it
    knew.  The client ends connected exactly when a peripheral is found and
    the link comes up: a failed discovery throws with the link up.  A scan
    that finds nothing leaves the client as it was. *)
Theorem connect_outcomes (address : option string) (a : Answers)
    (c : BleClient) :
  let c' := fst (fst (connect address a c)) in
  let started := snd (fst (connect address a c)) in
  let r := snd (connect address a c) in
  (_connected c = true -> c' = c /\ started = [] /\ r = Normal)
  /\ (_connected c = false ->
      List.length started = 1%nat
      /\ (r = Normal
          <-> exists p chars, scan a = Found p /\ link_ok a = true
                              /\ discovered a = Some chars)
      /\ (forall p chars,
            scan a = Found p -> link_ok a = true ->
            discovered a = Some chars ->
            _resolvedAddress c' = resolvedId p
            /\ forall u, hasCharacteristic c' u
                         = hasCharacteristic c u
                           || existsb (String.eqb u) chars)
      /\ (_connected c' = true
          <-> exists p, scan a = Found p /\ link_ok a = true)
      /\ ((forall p, scan a <> Found p) -> c' = c)).
Proof.
  cbn zeta. unfold connect. split; intro Hc; rewrite Hc.
  - repeat split.
  - destruct (scan a) as [p | |] eqn:Hs.
    + destruct (link_ok a) eqn:Hl.
      * destruct (discovered a) as [chars |] eqn:Hd; cbn [fst snd].
        -- split; [reflexivity |]. split.
           { split; [intros _; exists p, chars; auto | reflexivity]. }
           split.
           { intros p' chars' Hp' _ Hch. inversion Hp'; inversion Hch; subst.
             split; [reflexivity |]. intro u.
             unfold hasCharacteristic. cbn [characteristics].
             apply existsb_app. }
           split.
           { split; [intros _; exists p; auto | reflexivity]. }
           intro H. exfalso. exact (H p eq_refl).
        -- split; [reflexivity |]. split.
           { split; [discriminate | intros (p' & ch & _ & _ & H); discriminate]. }
           split; [intros p' chars' _ _ H; discriminate |].
           split.
           { split; [intros _; exists p; auto | reflexivity]. }
           intro H. exfalso. exact (H p eq_refl).
      * cbn [fst snd]. split; [reflexivity |]. split.
        { split; [discriminate | intros (p' & ch & _ & H & _); discriminate]. }
        split; [intros p' chars' _ H; discriminate |].
        split.
        { cbn [_connected]. rewrite ?Hc.
          split; [discriminate | intros (p' & _ & H); discriminate]. }
        intro H. exfalso. exact (H p eq_refl).
    + cbn [fst snd]. split; [reflexivity |]. split.
      { split; [discriminate | intros (p' & ch & H & _); discriminate]. }
      split; [intros p' chars' H; discriminate |].
      split; [| reflexivity].
      rewrite ?Hc. split; [discriminate | intros (p' & H & _); discriminate].
    + cbn [fst snd]. split; [reflexivity |]. split.
      { split; [discriminate | intros (p' & ch & H & _); discriminate]. }
      split; [intros p' chars' H; discriminate |].
      split; [| reflexivity].
      rewrite ?Hc. split; [discriminate | intros (p' & H & _); discriminate].
Qed.

(** X19.  What [disconnect] leaves.  After [disconnect] the client is not
    connected and knows no characteristic: every write and every
    subscription throws before any I/O, whatever the radio would answer.
    The resolved address is kept.  Disconnecting twice is disconnecting
    once, and the peripheral's own disconnect event leaves the same
    client. *)
Theorem client_disconnect (c : BleClient) (a : Answers) (uuid : string) :
  isConnected (disconnect c) = false
  /\ write uuid a (disconnect c) = Throw
  /\ snd (subscribeNotifications a (disconnect c)) = Throw
  /\ _resolvedAddress (disconnect c) = _resolvedAddress c
  /\ disconnect (disconnect c) = disconnect c
  /\ onPeripheralDisconnect c = disconnect c.
Proof. repeat split. Qed.

End ClientProperties.

(** ** More on the link supervisor *)

Section SupervisorMore.
Import Js Commands BleClient BleConnectionManager ManagerMore.

Ltac fields :=
  cbn [mgr client activations promises trace queue processing idleTimer
       connected connectPromise resolvedAddress address onReconnectCallback
       withMgr withClient withActivations log park set_queue set_processing
       set_idleTimer set_connected set_connectPromise set_resolvedAddress
       resetIdleTimer clearIdleTimer item parked fst snd
       replaceAt removeAt BleConnectionManager.disconnect] in *.

(** X20.  No command is lost or left waiting.  In every run, the commands
    enqueued so far are, in order, those settled, then the one being
    served, then those queued; the [processing] flag is set exactly while
    an activation of [processQueue] is alive, and the queue is empty
    whenever it is not: a queued command always has a running loop ahead
    of it.  A connection attempt is recorded as in flight exactly while
    that activation awaits it. *)
Theorem no_command_stranded (address : string)
    (callback : option (list BleCommand)) (inps : list Input) :
  let w := run inps (BleConnectionManager.new address callback) in
  enqueued w = settled w ++ map item (activations w) ++ queue (mgr w)
  /\ (processing (mgr w) = true <-> activations w <> [])
  /\ (processing (mgr w) = false -> queue (mgr w) = [])
  /\ (connectPromise (mgr w) = true
      <-> exists it att,
            activations w = [mkActivation it (AwaitConnect att true)]).
Proof.
  cbn zeta. set (w := run inps _).
  pose proof (reachable_inv address callback inps) as HI. fold w in HI.
  destruct (Inv_servesNext w HI) as (Henq & _ & _).
  split; [exact Henq |].
  unfold Inv in HI.
  destruct (activations w) as [| [it pk] [| act' l]]; [| | contradiction].
  - destruct HI as (_ & Hp & Hq & Hcp). rewrite Hp, Hcp.
    repeat split; try discriminate; try tauto; auto.
    intros (it & att & H). discriminate.
  - destruct HI as (_ & Hp & Hcp & Hno). cbn [parked] in *.
    rewrite Hp, Hcp. repeat split; try discriminate; auto.
    + destruct pk as [att [] | att |]; cbn; try discriminate.
      intros _. eauto.
    + intros (it' & att & H). inversion H. reflexivity.
Qed.

(** X21.  Never more than two writes.  In every run, each command has
    been handed to [client.write] at most twice (once, and once more after
    a reconnect), whatever the radio answers and however often it fails. *)
Theorem at_most_two_writes (address : string)
    (callback : option (list BleCommand)) (inps : list Input) (h : nat) :
  (writesOf h (trace (run inps (BleConnectionManager.new address callback)))
   <= 2)%nat.
Proof.
  destruct (Inv_books _ (reachable_inv address callback inps))
    as (lo & hi & B & _).
  destruct B. apply b_twice0.
Qed.

(** X22.  The connect target is the configured address, always.  In every
    run, each call of [client.connect] is given the configured address
    (or nothing, when none is configured), and each scan it starts is for
    that device (or for any device, when none is configured). *)
Theorem connect_targets_configured (address : string)
    (callback : option (list BleCommand)) (inps : list Input) :
  let w := run inps (BleConnectionManager.new address callback) in
  Forall (eq (orUndefined address)) (targets w)
  /\ Forall (eq (scanKindOf address)) (scans w)
  /\ BleConnectionManager.address (mgr w) = address.
Proof.
  cbn zeta.
  destruct (targets_as_configured address callback inps) as [H1 H2].
  split; [exact H1 |]. split; [exact H2 |].
  destruct (run_extends inps (BleConnectionManager.new address callback))
    as (Ha & _). exact Ha.
Qed.

(** *** Settled once, and resolved only after a write *)

Lemma pick_In {A B : Type} (f : A -> option B) (l : list A) (y : B) :
  In y (pick f l) <-> exists x, In x l /\ f x = Some y.
Proof.
  induction l as [| x l IH]; cbn [pick In].
  - split; [contradiction | intros (x & [] & _)].
  - destruct (f x) as [z |] eqn:Hz; cbn [In]; rewrite IH; split.
    + intros [<- | (x' & Hx' & Hf)]; eauto.
    + intros (x' & [<- | Hx'] & Hf); [left; congruence | eauto].
    + intros (x' & Hx' & Hf); eauto.
    + intros (x' & [<- | Hx'] & Hf); [congruence | eauto].
Qed.

Lemma NoDup_map_eq {A B : Type} (f : A -> B) (l : list A) (x y : A) :
  NoDup (map f l) -> In x l -> In y l -> f x = f y -> x = y.
Proof.
  induction l as [| z l IH]; cbn [map In]; [contradiction |].
  intros Hnd Hx Hy Hf. inversion Hnd as [| ? ? Hz Hl]; subst.
  destruct Hx as [-> | Hx], Hy as [-> | Hy]; auto.
  - exfalso. apply Hz. rewrite Hf. now apply in_map.
  - exfalso. apply Hz. rewrite <- Hf. now apply in_map.
Qed.

Lemma Books_NoDup cur q n tr lo hi :
  Books cur q n tr lo hi ->
  NoDup (handles (pick settledOf tr ++ cur ++ q)).
Proof.
  intro B. destruct B. rewrite <- b_enq0, b_handles0. apply seq_NoDup.
Qed.

(** The item an iteration has written at least once is among the writes. *)
Lemma inflight_written (it : QueuedCommand) (w : World) (lo hi : nat) :
  BooksW [it] lo hi w -> (1 <= lo)%nat -> In it (written w).
Proof.
  intros B Hlo. pose proof (Books_handle _ _ _ _ _ _ B) as Hh.
  pose proof (Books_NoDup _ _ _ _ _ _ B) as Hnd. destruct B.
  assert (Hc : (0 < writesOf (List.length (pick settledOf (trace w)))
                      (trace w))%nat) by lia.
  unfold writesOf in Hc. apply count_occ_In in Hc.
  unfold handles in Hc. apply in_map_iff in Hc as (x & Hx & Hin).
  pose proof (b_in0 x Hin) as Hx'.
  assert (x = it); [| now subst].
  apply (NoDup_map_eq handle (pick settledOf (trace w) ++ [it] ++ queue (mgr w)));
    [exact Hnd | | | congruence].
  - apply in_app_or in Hx' as [Hs | Hc']; apply in_or_app; [now left |].
    right. apply in_or_app. now left.
  - apply in_or_app. right. now left.
Qed.

(** Every command resolved so far has been written. *)
Definition Honest (w : World) : Prop :=
  forall q, In (Resolved q) (trace w) -> In q (written w).

Lemma Honest_ext (w w' : World) (es : list Event) :
  Honest w ->
  trace w' = trace w ++ es ->
  (forall q, In (Resolved q) es -> In q (written w ++ pick writtenOf es)) ->
  Honest w'.
Proof.
  intros H Ht Hes q Hq. unfold written in *. rewrite Ht in *.
  rewrite pick_app. apply in_app_or in Hq as [Hq | Hq].
  - apply in_or_app. left. now apply H.
  - now apply Hes.
Qed.

(** A call that extends the trace without settling anything. *)
Lemma Honest_quiet (w w' : World) :
  Extends w w' -> settled w' = settled w -> Honest w -> Honest w'.
Proof.
  intros (_ & es & Ht & _) Hs H. apply (Honest_ext w w' es H Ht).
  intros q Hq. exfalso.
  unfold settled in Hs. rewrite Ht, pick_app in Hs.
  rewrite <- (app_nil_r (pick settledOf (trace w))) in Hs at 2.
  apply app_inv_head in Hs.
  assert (Hin : In q (pick settledOf es))
    by (apply pick_In; exists (Resolved q); auto).
  rewrite Hs in Hin. contradiction.
Qed.

Lemma Honest_same (w w' : World) :
  trace w' = trace w -> Honest w -> Honest w'.
Proof. intros Ht H q. unfold written. rewrite Ht. apply H. Qed.

Lemma Honest_log (e : Event) (w : World) :
  resolvedOf e = None -> Honest w -> Honest (log [e] w).
Proof.
  intros He H. apply (Honest_ext w (log [e] w) [e] H eq_refl).
  intros q [Hq | []]. subst e. discriminate.
Qed.

Lemma iterate_settled (w : World) : settled (fst (iterate w)) = settled w.
Proof.
  pose proof (next_settled 0 w) as H. unfold next in H.
  destruct (iterate w) as [w1 [a |]]; exact H.
Qed.

Lemma enqueue_settled (c : BleCommand) (w : World) :
  settled (enqueue c w) = settled w.
Proof.
  unfold enqueue, processQueue. fields.
  set (w1 := mkWorld _ _ _ _ _).
  assert (H1 : settled w1 = settled w).
  { unfold settled. subst w1. fields. rewrite pick_app. cbn [pick enqueuedOf settledOf].
    now rewrite app_nil_r. }
  destruct (processing (mgr w)); [exact H1 |].
  pose proof (iterate_settled (withMgr (set_processing true) w1)) as H.
  destruct (iterate (withMgr (set_processing true) w1)) as [w2 [a |]];
    cbn [fst] in H; unfold settled in *; fields; congruence.
Qed.

Lemma next_honest (i : nat) (w : World) : Honest w -> Honest (next i w).
Proof.
  apply Honest_quiet; [apply next_extends | apply next_settled].
Qed.

Lemma fail_honest att i it w : Honest w -> Honest (fail att i it w).
Proof.
  intro H. destruct att; unfold fail.
  - apply (Honest_same (log [DisconnectCall] (withMgr (set_connected false) w)));
      [reflexivity |].
    now apply (Honest_log DisconnectCall (withMgr (set_connected false) w)).
  - apply next_honest. now apply Honest_log.
Qed.

Lemma resume_honest (i : nat) (a : Answers) (w : World) :
  Inv w -> Honest w -> Honest (resume i a w).
Proof.
  intros HI H. unfold Inv in HI. unfold resume.
  destruct (activations w) as [| [it pk] [| act' l]] eqn:Ha;
    [destruct i; exact H | | contradiction].
  destruct i as [| i]; [| destruct i; exact H].
  cbn [nth_error item parked]. destruct HI as (B & Hp & Hcp & Hno).
  cbn [item parked] in *.
  destruct pk as [att own | att |].
  - destruct own; [| exfalso; exact (Hno att eq_refl)].
    destruct (doConnect_busy_trace a w Hp) as (es & Hes & Hsil).
    apply pick_silent in Hsil as (_ & _ & S3).
    pose proof (doConnect_extends a w) as X.
    destruct (doConnect a w) as [w' r]. cbn [fst] in *.
    assert (H' : Honest (withMgr (set_connectPromise false) w')).
    { apply (Honest_same w'); [reflexivity |].
      apply (Honest_quiet w w' X); [| exact H].
      unfold settled. now rewrite Hes, pick_app, S3, app_nil_r. }
    destruct r; [| now apply fail_honest].
    apply (Honest_same
             (log [WriteCall it] (withMgr (set_connectPromise false) w')));
      [reflexivity | now apply Honest_log].
  - destruct (write (characteristicUuid (command it)) a (client w));
      [| now apply fail_honest].
    apply next_honest.
    apply (Honest_ext w (log [Resolved it] (withMgr resetIdleTimer w))
             [Resolved it] H eq_refl).
    intros q [Hq | []]. inversion Hq; subst q.
    apply in_or_app. left.
    apply (inflight_written it w _ _ B). destruct att; cbn; lia.
  - set (w1 := withClient _ w).
    pose proof (attempt_extends Retry it w1) as X.
    pose proof (attempt_settled Retry it w1) as S.
    destruct (attempt Retry it w1) as [w2 act2]. cbn [fst] in *.
    apply (Honest_same w2); [reflexivity |].
    apply (Honest_quiet w1 w2 X S). exact H.
Qed.

Lemma step_honest (inp : Input) (w : World) :
  Inv w -> Honest w -> Honest (step inp w).
Proof.
  intros HI H. destruct inp as [c | i a | | |]; cbn [step].
  - apply (Honest_quiet w); [apply enqueue_extends | apply enqueue_settled
                            | exact H].
  - now apply resume_honest.
  - destruct (idleTimer (mgr w)); [| exact H].
    unfold BleConnectionManager.disconnect.
    now apply Honest_log.
  - exact H.
  - destruct (_ && _); exact H.
Qed.

Lemma run_honest (inps : list Input) :
  forall w, Inv w -> Honest w -> Honest (run inps w).
Proof.
  induction inps as [| inp inps IH]; intros w HI H; cbn [run fold_left];
    [exact H |].
  apply IH; [now apply step_inv | now apply step_honest].
Qed.

Lemma settled_exclusive (tr : list Event) (q : QueuedCommand) :
  NoDup (pick settledOf tr) ->
  In (Resolved q) tr -> In (Rejected q) tr -> False.
Proof.
  induction tr as [| e tr IH]; cbn [pick In]; [tauto |].
  intros Hnd [He | Hr] [He' | Hj]; try (subst e; discriminate).
  - subst e. cbn [settledOf] in Hnd. inversion Hnd as [| ? ? Hq _]; subst.
    apply Hq. apply pick_In. exists (Rejected q). auto.
  - subst e. cbn [settledOf] in Hnd. inversion Hnd as [| ? ? Hq _]; subst.
    apply Hq. apply pick_In. exists (Resolved q). auto.
  - apply IH; auto. destruct (settledOf e); [| exact Hnd].
    now inversion Hnd.
Qed.

(** X23.  Promises are settled honestly.  In every run: no command is
    settled twice; a command that was resolved has been handed to
    [client.write] before (success is never reported for a command that
    was not written); and no command is both resolved and rejected. *)
Theorem settled_once_and_honestly (address : string)
    (callback : option (list BleCommand)) (inps : list Input) :
  let w := run inps (BleConnectionManager.new address callback) in
  NoDup (handles (settled w))
  /\ (forall q, In q (resolved w) -> In q (written w))
  /\ (forall q, In q (resolved w) -> ~ In q (rejected w)).
Proof.
  cbn zeta. set (w := run inps _).
  pose proof (reachable_inv address callback inps) as HI. fold w in HI.
  destruct (Inv_books w HI) as (lo & hi & B & _).
  pose proof (Books_NoDup _ _ _ _ _ _ B) as Hnd.
  unfold handles in Hnd. rewrite map_app in Hnd.
  apply NoDup_app_remove_r in Hnd.
  assert (Hh : Honest w).
  { apply run_honest; [apply new_inv | intros q []]. }
  split; [exact Hnd |]. split.
  - intros q Hq. apply Hh. unfold resolved in Hq.
    apply pick_In in Hq as (e & He & Hf). destruct e; try discriminate.
    now inversion Hf; subst.
  - intros q Hq Hj. unfold resolved, rejected in *.
    apply pick_In in Hq as (e & He & Hf). destruct e; try discriminate.
    inversion Hf; subst. clear Hf.
    apply pick_In in Hj as (e' & He' & Hf'). destruct e'; try discriminate.
    inversion Hf'; subst. clear Hf'.
    apply (settled_exclusive (trace w) q); auto.
    apply NoDup_map_inv in Hnd. exact Hnd.
Qed.

(** *** A radio that works *)

Lemma World_eta (w : World) :
  w = mkWorld (mgr w) (client w) (activations w) (promises w) (trace w).
Proof. now destruct w. Qed.

Lemma Manager_eta (m : Manager) : set_queue (queue m) m = m.
Proof. now destruct m. Qed.

Lemma tagged_app (l1 l2 : list BleCommand) :
  forall n, tagged n (l1 ++ l2)
            = tagged n l1 ++ tagged (n + List.length l1) l2.
Proof.
  induction l1 as [| c l1 IH]; intro n; cbn [tagged app List.length].
  - now rewrite Nat.add_0_r.
  - rewrite IH. do 3 f_equal. lia.
Qed.

Lemma tagged_length (l : list BleCommand) :
  forall n, List.length (tagged n l) = List.length l.
Proof.
  induction l as [| c l IH]; intro n; cbn [tagged List.length];
    [reflexivity | now rewrite IH].
Qed.

Lemma tagged_In (n : nat) (l : list BleCommand) (x : QueuedCommand) :
  In x (tagged n l) -> In (command x) l.
Proof.
  revert n. induction l as [| c l IH]; intros n Hx; cbn [tagged In] in *;
    [contradiction |].
  destruct Hx as [<- | Hx]; [now left | right; now apply (IH (S n))].
Qed.

(** While the loop runs, enqueuing commands appends them, tagged, to the
    queue. *)
Lemma enqueue_all_busy (cmds : list BleCommand) :
  forall w,
    processing (mgr w) = true ->
    fold_left (fun w' c => enqueue c w') cmds w
    = mkWorld (set_queue (queue (mgr w) ++ tagged (promises w) cmds) (mgr w))
        (client w) (activations w) (promises w + List.length cmds)
        (trace w ++ map Enqueued (tagged (promises w) cmds)).
Proof.
  induction cmds as [| c cmds IH]; intros w Hp; cbn [fold_left tagged map].
  - rewrite !app_nil_r, Nat.add_0_r, Manager_eta. apply World_eta.
  - rewrite (enqueue_busy c w Hp). rewrite IH by exact Hp. fields.
    cbn [List.length]. rewrite <- !app_assoc. cbn [app].
    replace (S (promises w) + List.length cmds)%nat
      with (promises w + S (List.length cmds))%nat by lia.
    reflexivity.
Qed.

Lemma run_enqueues (cmds : list BleCommand) :
  forall w, run (map Enqueue cmds) w
            = fold_left (fun w' c => enqueue c w') cmds w.
Proof.
  induction cmds as [| c cmds IH]; intro w; [reflexivity |].
  cbn [map run fold_left step]. apply IH.
Qed.

Lemma run_app (l1 l2 : list Input) (w : World) :
  run (l1 ++ l2) w = run l2 (run l1 w).
Proof. unfold run. apply fold_left_app. Qed.

(** The loop is writing [q], the link is up, and the client knows the
    characteristic of every command still to be written. *)
Definition Serving (q : QueuedCommand) (w : World) : Prop :=
  activations w = [mkActivation q (AwaitWrite First)]
  /\ connected (mgr w) = true
  /\ _connected (client w) = true
  /\ forall x, In x (q :: queue (mgr w)) ->
               hasCharacteristic (client w)
                 (characteristicUuid (command x)) = true.

(** With the link up and every write succeeding, the loop writes and
    resolves the queued commands one after the other and ends. *)
Lemma drain (a : Answers) :
  io_ok a = true ->
  forall (rest : list QueuedCommand) (q : QueuedCommand) (w : World),
    Serving q w ->
    queue (mgr w) = rest ->
    let w' := run (repeat (Resume 0 a) (S (List.length rest))) w in
    trace w'
    = trace w ++ Resolved q :: flat_map (fun x => [WriteCall x; Resolved x]) rest
    /\ activations w' = []
    /\ queue (mgr w') = []
    /\ processing (mgr w') = false
    /\ connected (mgr w') = true
    /\ idleTimer (mgr w') = true
    /\ client w' = client w
    /\ resolvedAddress (mgr w') = resolvedAddress (mgr w)
    /\ promises w' = promises w.
Proof.
  intros Hio rest.
  induction rest as [| x rest IH]; intros q w (Ha & Hc & Hcc & Hch) Hq;
    cbn zeta.
  - cbn [List.length repeat run fold_left step]. unfold resume. rewrite Ha. cbn [nth_error item parked].
    unfold write. rewrite (Hch q (or_introl eq_refl)), Hio.
    unfold next, iterate. fields. rewrite Hq. fields. rewrite Ha.
    cbn [removeAt flat_map]. repeat split; auto.
  - assert (E : resume 0 a w
                = mkWorld (resetIdleTimer (set_queue rest (resetIdleTimer (mgr w))))
                    (client w) [mkActivation x (AwaitWrite First)]
                    (promises w)
                    ((trace w ++ [Resolved q]) ++ [WriteCall x])).
    { unfold resume. rewrite Ha. cbn [nth_error item parked].
      unfold write. rewrite (Hch q (or_introl eq_refl)), Hio.
      unfold next, iterate. fields. rewrite Hq.
      unfold attempt, ensureConnected. fields. rewrite Hc.
      unfold BleClient.isConnected. rewrite Hcc. cbn [andb].
      unfold park, log, withMgr, withActivations. fields.
      rewrite Ha. reflexivity. }
    change (run (repeat (Resume 0 a) (S (List.length (x :: rest)))) w)
      with (run (repeat (Resume 0 a) (S (List.length rest))) (resume 0 a w)).
    rewrite E. clear E. set (w1 := mkWorld _ _ _ _ _).
    destruct (IH x w1) as (T & R); [| reflexivity |].
    { repeat split; subst w1; fields; auto.
      intros y Hy. apply Hch. rewrite Hq. right. exact Hy. }
    split.
    + rewrite T. subst w1. fields. cbn [flat_map].
      rewrite <- !app_assoc. reflexivity.
    + exact R.
Qed.

Lemma pick_map_Enqueued_enq (l : list QueuedCommand) :
  pick enqueuedOf (map Enqueued l) = l.
Proof. induction l; cbn; congruence. Qed.

Lemma pick_map_Enqueued_none {B : Type} (f : Event -> option B)
    (l : list QueuedCommand) :
  (forall q, f (Enqueued q) = None) -> pick f (map Enqueued l) = [].
Proof. intro H. induction l; cbn [map pick]; [reflexivity |]. now rewrite H. Qed.

Lemma pick_served_written (l : list QueuedCommand) :
  pick writtenOf (flat_map (fun x => [WriteCall x; Resolved x]) l) = l.
Proof. induction l; cbn; congruence. Qed.

Lemma pick_served_resolved (l : list QueuedCommand) :
  pick resolvedOf (flat_map (fun x => [WriteCall x; Resolved x]) l) = l.
Proof. induction l; cbn; congruence. Qed.

Lemma pick_served_none {B : Type} (f : Event -> option B)
    (l : list QueuedCommand) :
  (forall q, f (WriteCall q) = None) -> (forall q, f (Resolved q) = None) ->
  pick f (flat_map (fun x => [WriteCall x; Resolved x]) l) = [].
Proof.
  intros H1 H2. induction l; cbn [flat_map pick app]; [reflexivity |].
  now rewrite H1, H2.
Qed.

(** The commands of the registered reconnect callback. *)
Definition callbackCommands (callback : option (list BleCommand))
  : list BleCommand :=
  match callback with
  | Some l => l
  | None => []
  end.

(** The world once the first connection is up and the first write is
    issued. *)
Lemma first_connection (address : string)
    (callback : option (list BleCommand)) (c0 : BleCommand)
    (cmds : list BleCommand) (a : Answers) (p : Peripheral)
    (chars : list string) :
  scan a = Found p -> link_ok a = true -> discovered a = Some chars ->
  subscribe_ok a = true ->
  existsb (String.eqb Settings.CharUUID.UpStream) chars = true ->
  let q0 := mkQueued c0 0 in
  let rest := tagged 1 (cmds ++ callbackCommands callback) in
  let w :=
    resume 0 a
      (fold_left (fun w' c => enqueue c w') cmds
         (enqueue c0 (BleConnectionManager.new address callback))) in
  activations w = [mkActivation q0 (AwaitWrite First)]
  /\ connected (mgr w) = true
  /\ _connected (client w) = true
  /\ characteristics (client w) = chars
  /\ queue (mgr w) = rest
  /\ exists mid,
       trace w
       = Enqueued q0 :: ConnectCall (orUndefined address)
           :: map Enqueued (tagged 1 cmds)
           ++ Scanned (scanKindOf address) :: mid
           ++ map Enqueued
                (tagged (1 + List.length cmds) (callbackCommands callback))
           ++ [WriteCall q0]
       /\ (mid = [] \/ mid = [ReconnectCallback]).
Proof.
  intros Hs Hl Hd Hsub Hup. cbn zeta.
  assert (E0 : enqueue c0 (BleConnectionManager.new address callback)
               = mkWorld
                   (mkManager address [] true false false true address
                      callback)
                   BleClient.new
                   [mkActivation (mkQueued c0 0) (AwaitConnect First true)]
                   1
                   [Enqueued (mkQueued c0 0);
                    ConnectCall (orUndefined address)])
    by reflexivity.
  rewrite E0, enqueue_all_busy by reflexivity. fields.
  unfold resume. fields. cbn [nth_error item parked].
  unfold doConnect. fields. unfold connect, BleClient.new.
  cbn [_connected]. rewrite Hs, Hl, Hd.
  unfold subscribeNotifications, hasCharacteristic.
  cbn [characteristics app peripheral notificationHandler _connected
       _resolvedAddress].
  rewrite Hup, Hsub.
  assert (Hk : match orUndefined address with
               | Some s => if truthy s then ScanForDevice s
                           else ScanForAnyDevice
               | None => ScanForAnyDevice
               end = scanKindOf address).
  { unfold orUndefined, scanKindOf.
    destruct (truthy address) eqn:Ht; [now rewrite Ht | reflexivity]. }
  rewrite Hk.
  destruct (negb (truthy address) && truthy (resolvedId p));
    destruct callback as [l |]; cbn [callbackCommands]; fields;
    rewrite ?enqueue_all_busy by reflexivity; fields;
    cbn [map]; rewrite ?tagged_app, ?app_nil_r;
    (refine (conj _ (conj _ (conj _ (conj _ (conj _ _)))));
     [try reflexivity; cbn [tagged]; rewrite ?app_nil_r; reflexivity .. |]);
    lazymatch goal with
    | |- context [_ ++ [ReconnectCallback]] =>
        exists [ReconnectCallback]; split; [| now right]
    | |- _ => exists []; split; [| now left]
    end;
    cbn [app map tagged]; rewrite <- ?app_assoc; reflexivity.
Qed.

(** X24.  With a radio that works, everything is served, in order, over
    one connection.  Commands are enqueued on a fresh manager, one or more;
    the radio finds the device, connects, discovers the characteristics the
    commands need, and lets every write succeed.  Then there is exactly one
    call of [client.connect] and one scan, however many commands wait; the
    commands written are the enqueued ones followed by those of the
    reconnect callback, each once and in that order; all of them are
    resolved and none rejected; and the loop ends with the queue empty, the
    link up and the idle timer set. *)
Theorem reliable_radio_serves_all (address : string)
    (callback : option (list BleCommand)) (c0 : BleCommand)
    (cmds : list BleCommand) (a : Answers) (p : Peripheral)
    (chars : list string) :
  scan a = Found p -> link_ok a = true -> discovered a = Some chars ->
  subscribe_ok a = true -> io_ok a = true ->
  existsb (String.eqb Settings.CharUUID.UpStream) chars = true ->
  let all := (c0 :: cmds) ++ callbackCommands callback in
  (forall c, In c all ->
     existsb (String.eqb (characteristicUuid c)) chars = true) ->
  let w :=
    run (map Enqueue (c0 :: cmds)
         ++ repeat (Resume 0 a) (S (List.length all)))
      (BleConnectionManager.new address callback) in
  targets w = [orUndefined address]
  /\ scans w = [scanKindOf address]
  /\ written w = tagged 0 all
  /\ resolved w = tagged 0 all
  /\ rejected w = []
  /\ activations w = [] /\ queue (mgr w) = [] /\ processing (mgr w) = false
  /\ isConnected w = true
  /\ idleTimer (mgr w) = true.
Proof.
  intros Hs Hl Hd Hsub Hio Hup all Hall. cbn zeta.
  rewrite run_app, run_enqueues. cbn [fold_left].
  destruct (first_connection address callback c0 cmds a p chars
              Hs Hl Hd Hsub Hup)
    as (Ha & Hc & Hcc & Hch & Hq & mid & Ht & Hmid).
  cbn zeta in *.
  set (w1 := fold_left _ cmds _) in *.
  change (run (repeat (Resume 0 a) (S (List.length all))) w1)
    with (run (repeat (Resume 0 a) (List.length all)) (resume 0 a w1)).
  set (w2 := resume 0 a w1) in *.
  assert (Hlen : List.length all
                 = S (List.length (tagged 1 (cmds ++ callbackCommands callback))))
    by (subst all; cbn [app List.length]; now rewrite tagged_length).
  rewrite Hlen.
  assert (Hserv : Serving (mkQueued c0 0) w2).
  { refine (conj Ha (conj Hc (conj Hcc _))). intros x Hx.
    unfold hasCharacteristic. rewrite Hch. apply Hall.
    rewrite Hq in Hx. subst all. cbn [app].
    destruct Hx as [<- | Hx]; [now left | right].
    now apply (tagged_In 1). }
  destruct (drain a Hio _ _ w2 Hserv Hq)
    as (Tr & Hact & Hqe & Hpr & Hco & Hid & Hcl & _ & _).
  cbn zeta in *. set (w3 := run _ w2) in *.
  assert (Hpk : forall {B : Type} (f : Event -> option B),
            pick f (trace w3)
            = pick f [Enqueued (mkQueued c0 0)]
              ++ pick f [ConnectCall (orUndefined address)]
              ++ pick f (map Enqueued (tagged 1 cmds))
              ++ pick f [Scanned (scanKindOf address)]
              ++ pick f mid
              ++ pick f (map Enqueued
                           (tagged (1 + List.length cmds)
                              (callbackCommands callback)))
              ++ pick f [WriteCall (mkQueued c0 0)]
              ++ pick f [Resolved (mkQueued c0 0)]
              ++ pick f (flat_map (fun x => [WriteCall x; Resolved x])
                           (tagged 1 (cmds ++ callbackCommands callback)))).
  { intros B f. rewrite Tr, Ht.
    change (Enqueued (mkQueued c0 0) :: ConnectCall (orUndefined address)
              :: map Enqueued (tagged 1 cmds) ++ ?x)
      with ([Enqueued (mkQueued c0 0)] ++ [ConnectCall (orUndefined address)]
              ++ map Enqueued (tagged 1 cmds) ++ x).
    change (Scanned (scanKindOf address) :: mid ++ ?x)
      with ([Scanned (scanKindOf address)] ++ mid ++ x).
    change (Resolved (mkQueued c0 0) :: ?x)
      with ([Resolved (mkQueued c0 0)] ++ x).
    rewrite !pick_app, <- !app_assoc. reflexivity. }
  assert (Hm : pick targetOf mid = [] /\ pick scanOf mid = []
               /\ pick writtenOf mid = [] /\ pick resolvedOf mid = []
               /\ pick rejectedOf mid = [])
    by (destruct Hmid as [-> | ->]; repeat split).
  destruct Hm as (M1 & M2 & M3 & M4 & M5).
  unfold targets, scans, written, resolved, rejected, isConnected.
  rewrite !Hpk, M1, M2, M3, M4, M5.
  rewrite !pick_map_Enqueued_none by reflexivity.
  rewrite pick_served_written, pick_served_resolved.
  rewrite !pick_served_none by reflexivity.
  rewrite Hco, Hcl. unfold BleClient.isConnected. rewrite Hcc.
  subst all. cbn [pick targetOf scanOf writtenOf resolvedOf rejectedOf app
                  tagged andb].
  repeat split; auto.
Qed.

Lemma reliable_radio_serves_all_witness :
  let w :=
    run (map Enqueue [setVolume 10; setMute true; setPower false]
         ++ repeat (Resume 0 radioOk) 5)
      (BleConnectionManager.new "" (Some [requestDeviceInfo])) in
  scan radioOk = Found sofa /\ link_ok radioOk = true
  /\ subscribe_ok radioOk = true /\ io_ok radioOk = true
  /\ targets w = [None]
  /\ written w
     = tagged 0 [setVolume 10; setMute true; setPower false; requestDeviceInfo]
  /\ rejected w = [].
Proof.
  cbn zeta. do 4 (split; [reflexivity |]).
  set (chars := [Settings.CharUUID.UpStream; Settings.CharUUID.DeviceInfo;
                 Settings.CharUUID.EqControl; Settings.CharUUID.AudioPath]).
  assert (Hall : forall c,
            In c ((setVolume 10 :: [setMute true; setPower false])
                  ++ callbackCommands (Some [requestDeviceInfo])) ->
            existsb (String.eqb (characteristicUuid c)) chars = true)
    by (cbn; intros c [<- | [<- | [<- | [<- | []]]]]; reflexivity).
  destruct (reliable_radio_serves_all ""
              (Some [requestDeviceInfo]) (setVolume 10)
              [setMute true; setPower false] radioOk sofa chars
              eq_refl eq_refl eq_refl eq_refl eq_refl eq_refl Hall)
    as (H1 & _ & H3 & _ & H5 & _).
  exact (conj H1 (conj H3 H5)).
Defined.

(** *** What the manager keeps true of its flags *)

Definition Kept (w : World) : Prop :=
  (connected (mgr w) = true -> idleTimer (mgr w) = true)
  /\ (truthy (address (mgr w)) = true ->
      resolvedAddress (mgr w) = address (mgr w)).

(** [Kept] looks at three fields of the manager only. *)
Lemma Kept_same (w w' : World) :
  connected (mgr w') = connected (mgr w) ->
  idleTimer (mgr w') = idleTimer (mgr w) ->
  address (mgr w') = address (mgr w) ->
  resolvedAddress (mgr w') = resolvedAddress (mgr w) ->
  Kept w -> Kept w'.
Proof.
  unfold Kept. intros -> -> -> ->. tauto.
Qed.

Lemma Kept_reset (w : World) : Kept w -> Kept (withMgr resetIdleTimer w).
Proof. unfold Kept. fields. tauto. Qed.

Lemma Kept_down (w : World) :
  Kept w -> Kept (withMgr (set_connected false) w).
Proof. unfold Kept. fields. intros [_ K2]. split; [discriminate | exact K2]. Qed.

Lemma ensureConnected_kept w : Kept w -> Kept (fst (ensureConnected w)).
Proof.
  intro H. unfold ensureConnected.
  destruct (connected (mgr w) && BleClient.isConnected (client w));
    cbn [fst]; [now apply Kept_reset |].
  destruct (connectPromise (mgr w)); cbn [fst]; [exact H |].
  now apply (Kept_same w).
Qed.

Lemma attempt_kept att it w : Kept w -> Kept (fst (attempt att it w)).
Proof.
  intro H. unfold attempt. pose proof (ensureConnected_kept w H) as H1.
  destruct (ensureConnected w) as [w1 e]. cbn [fst] in H1.
  destruct e; cbn [fst]; [| exact H1]. now apply (Kept_same w1).
Qed.

Lemma iterate_kept w : Kept w -> Kept (fst (iterate w)).
Proof.
  intro H. unfold iterate. destruct (queue (mgr w)) as [| it rest];
    cbn [fst]; [now apply (Kept_same w) |].
  pose proof (attempt_kept First it (withMgr (set_queue rest) w)
                (Kept_same w _ eq_refl eq_refl eq_refl eq_refl H))
    as H1.
  destruct (attempt First it (withMgr (set_queue rest) w)) as [w1 act].
  exact H1.
Qed.

Lemma processQueue_kept w : Kept w -> Kept (processQueue w).
Proof.
  intro H. unfold processQueue. destruct (processing (mgr w)); [exact H |].
  pose proof (iterate_kept (withMgr (set_processing true) w)
                (Kept_same w _ eq_refl eq_refl eq_refl eq_refl H))
    as H1.
  destruct (iterate (withMgr (set_processing true) w)) as [w1 [a |]];
    cbn [fst] in H1; [| exact H1].
  now apply (Kept_same w1).
Qed.

Lemma enqueue_kept c w : Kept w -> Kept (enqueue c w).
Proof.
  intro H. unfold enqueue. apply processQueue_kept.
  now apply (Kept_same w).
Qed.

Lemma enqueue_all_kept (cmds : list BleCommand) :
  forall w, Kept w -> Kept (fold_left (fun w' c => enqueue c w') cmds w).
Proof.
  induction cmds as [| c cmds IH]; intros w H; cbn [fold_left]; [exact H |].
  apply IH. now apply enqueue_kept.
Qed.

Lemma doConnect_kept a w : Kept w -> Kept (fst (doConnect a w)).
Proof.
  intros H. unfold doConnect.
  destruct (connect (orUndefined (address (mgr w))) a (client w))
    as [[c1 ks] r].
  set (w1 := log (map Scanned ks) (withClient c1 w)).
  assert (H1 : Kept w1) by now apply (Kept_same w).
  destruct r; cbn [fst]; [| now apply Kept_down].
  set (w2 := if negb (truthy (address (mgr w))) && truthy (_resolvedAddress c1)
             then withMgr (set_resolvedAddress (_resolvedAddress c1)) w1
             else w1).
  assert (H2 : Kept w2).
  { subst w2. destruct (truthy (address (mgr w))) eqn:Ht; cbn [negb andb];
      [exact H1 |].
    destruct (truthy (_resolvedAddress c1)); [| exact H1].
    destruct H1 as [K1 K2]. unfold Kept. subst w1. fields.
    split; [exact K1 |]. rewrite Ht. discriminate. }
  clearbody w2.
  destruct (subscribeNotifications a c1) as [c2 r2].
  assert (H3 : Kept (withClient c2 w2)) by now apply (Kept_same w2).
  destruct r2; cbn [fst]; [| now apply Kept_down].
  assert (H4 : Kept (withMgr resetIdleTimer
                       (withMgr (set_connected true) (withClient c2 w2)))).
  { destruct H3 as [_ K2]. unfold Kept. fields. split; auto. }
  destruct (onReconnectCallback (mgr w)) as [cmds |]; cbn [fst];
    [| exact H4].
  apply enqueue_all_kept. now apply (Kept_same (withMgr resetIdleTimer
    (withMgr (set_connected true) (withClient c2 w2)))).
Qed.

Lemma next_kept i w : Kept w -> Kept (next i w).
Proof.
  intro H. unfold next. pose proof (iterate_kept w H) as H1.
  destruct (iterate w) as [w1 [a |]]; cbn [fst] in H1;
    now apply (Kept_same w1).
Qed.

Lemma fail_kept att i it w : Kept w -> Kept (fail att i it w).
Proof.
  intros H. destruct att; unfold fail.
  - apply (Kept_same (withMgr (set_connected false) w)); auto.
    now apply Kept_down.
  - apply next_kept. now apply (Kept_same w).
Qed.

Lemma resume_kept i a w : Kept w -> Kept (resume i a w).
Proof.
  intro H. unfold resume.
  destruct (nth_error (activations w) i) as [[it pk] |]; [| exact H].
  cbn [item parked]. destruct pk as [att own | att |].
  - assert (H1 : Kept (fst (if own
                            then let (w', r) := doConnect a w in
                                 (withMgr (set_connectPromise false) w', r)
                            else (w, if io_ok a then Normal else Throw)))).
    { destruct own; [| exact H].
      pose proof (doConnect_kept a w H) as Hd.
      destruct (doConnect a w) as [w' r]. cbn [fst] in *.
      now apply (Kept_same w'). }
    destruct (if own then _ else _) as [w1 r]. cbn [fst] in H1.
    destruct r; [now apply (Kept_same w1) | now apply fail_kept].
  - destruct (write _ a (client w)); [| now apply fail_kept].
    apply next_kept.
    apply (Kept_same (withMgr resetIdleTimer w)); auto.
    now apply Kept_reset.
  - set (w1 := withClient (BleClient.disconnect (client w)) w).
    assert (H1 : Kept w1) by now apply (Kept_same w).
    pose proof (attempt_kept Retry it w1 H1) as H2.
    destruct (attempt Retry it w1) as [w2 act2]. cbn [fst] in H2.
    now apply (Kept_same w2).
Qed.

Lemma step_kept inp w : Kept w -> Kept (step inp w).
Proof.
  intro H. destruct inp as [c | i a | | |]; cbn [step].
  - now apply enqueue_kept.
  - now apply resume_kept.
  - destruct (idleTimer (mgr w)); [| exact H].
    destruct H as (K1 & K2). unfold Kept. fields.
    split; [discriminate | exact K2].
  - now apply (Kept_same w).
  - destruct (_ && _); [now apply Kept_reset | exact H].
Qed.

(** What reaches the manager from outside: the inputs of [step], and a
    call of [disconnect()] by the platform (at shutdown). *)
Inductive Call : Set :=
| Drive (inp : Input)
| Disconnect.

Definition call (c : Call) (w : World) : World :=
  match c with
  | Drive inp => step inp w
  | Disconnect => BleConnectionManager.disconnect w
  end.

Definition calls (cs : list Call) (w : World) : World :=
  fold_left (fun w' c => call c w') cs w.

Lemma call_kept (c : Call) (w : World) : Kept w -> Kept (call c w).
Proof.
  intro H. destruct c as [inp |]; cbn [call]; [now apply step_kept |].
  destruct H as (K1 & K2). unfold Kept. fields.
  split; [discriminate | exact K2].
Qed.

Lemma calls_kept (cs : list Call) : forall w, Kept w -> Kept (calls cs w).
Proof.
  induction cs as [| c cs IH]; intros w H; cbn [calls fold_left];
    [exact H |].
  apply IH. now apply call_kept.
Qed.

Lemma calls_address (cs : list Call) :
  forall w, BleConnectionManager.address (mgr (calls cs w))
            = BleConnectionManager.address (mgr w).
Proof.
  induction cs as [| c cs IH]; intro w; cbn [calls fold_left];
    [reflexivity |].
  fold (calls cs (call c w)). rewrite IH.
  destruct c as [inp |]; cbn [call]; [| reflexivity].
  now destruct (step_extends inp w) as (Ha & _).
Qed.

(** X25.  What the manager keeps true of its own flags.  Whatever reaches
    it (commands, answers of the radio, the idle timer, link drops,
    notifications, [disconnect()] called from outside): whenever the
    manager's [connected] flag is set, its idle timer is set too, so a
    link the manager counts as up is always due to be released; and a
    configured address is never replaced, [getResolvedAddress()] answers
    it throughout.  Both are about fields that only the manager writes,
    and each is restored within the synchronous block that touches it
    ([connected = true] is followed by [resetIdleTimer()],
    [clearIdleTimer()] in [disconnect] by [connected = false]). *)
Theorem manager_keeps (address : string)
    (callback : option (list BleCommand)) (cs : list Call) :
  let w := calls cs (BleConnectionManager.new address callback) in
  (connected (mgr w) = true -> idleTimer (mgr w) = true)
  /\ (truthy address = true -> getResolvedAddress w = address).
Proof.
  cbn zeta.
  assert (H : Kept (calls cs (BleConnectionManager.new address callback))).
  { apply calls_kept. unfold Kept. cbn. split; [discriminate | reflexivity]. }
  pose proof (calls_address cs (BleConnectionManager.new address callback))
    as Ha.
  cbn [BleConnectionManager.new mgr BleConnectionManager.address] in Ha.
  destruct H as (K1 & K2).
  split; [exact K1 |].
  intro Ht. unfold getResolvedAddress. rewrite <- Ha at 2.
  apply K2. now rewrite Ha.
Qed.

(** *** Every command is served, in its turn *)

















End SupervisorMore.
